(** * Digraph.hpp: a shallow embedding of the generic directed graph

    The C++ class template [Digraph<VertexInfo, EdgeInfo>] keeps one private
    member, [std::map<int, DigraphVertex<VertexInfo, EdgeInfo>> container];
    every vertex record owns a [std::list] of its outgoing edges.

    Modelling choices
    - [std::map<int, T>] is a [gmap Z T]; iteration from [begin()] to [end()]
      visits the entries by increasing key ([map_iter]).
    - [std::list<T>] is a [list T]; [push_back] appends on the right.
    - a [const] member function returns a [result]: a value, a thrown
      exception, or undefined behaviour; a mutating member function returns
      an [outcome], which also carries the container as it is when the call
      returns or throws.  The recursion of [DFTr] and the [while] loop of
      [findShortestPaths] take a budget computed from the graph; [OutOfFuel]
      is the model's answer when the budget is used up, and the theorems show
      that the budget is never used up.
    - [int] values are [Z]; a finite [double] is the rational [Q] that it
      denotes.  The sum of two [double]s is the exact sum rounded to binary64:
      the rounding is a parameter ([Rounding]), of which the theorems assume
      only what they state.  The conversion of a [double] to [int] truncates
      toward zero and is undefined outside the range of [int]. *)

From Stdlib Require Import ZArith QArith Qabs Qround String List Lia.
From stdpp Require Import gmap strings list fin_maps sorting.

Local Open Scope Z_scope.

(** ** Exceptions and results *)

Inductive exn : Type :=
  | DigraphException (reason : string)
  | out_of_range.

Inductive result (A : Type) : Type :=
  | Ok (a : A)
  | Throw (e : exn)
  | Undefined
  | OutOfFuel.
Arguments Ok {A} a.
Arguments Throw {A} e.
Arguments Undefined {A}.
Arguments OutOfFuel {A}.

Global Instance result_bind : MBind result := fun A B k r =>
  match r with
  | Ok a => k a
  | Throw e => Throw e
  | Undefined => Undefined
  | OutOfFuel => OutOfFuel
  end.

Global Instance result_ret : MRet result := fun A a => Ok a.

(** ** [std::map] iteration order *)

Definition key_le {A : Type} (x y : Z * A) : Prop := x.1 <= y.1.

Global Instance key_le_dec {A : Type} : RelDecision (@key_le A).
Proof. intros x y. unfold key_le. apply _. Defined.

Definition map_iter {A : Type} (m : gmap Z A) : list (Z * A) :=
  merge_sort key_le (map_to_list m).

(** ** The data model *)

Section Digraph.

Context {VertexInfo EdgeInfo : Type}.

Record DigraphEdge : Type := mkEdge
  { fromVertex : Z;
    toVertex : Z;
    einfo : EdgeInfo }.

Record DigraphVertex : Type := mkVertex
  { vinfo : VertexInfo;
    edges : list DigraphEdge }.

Record Digraph : Type := mkDigraph
  { container : gmap Z DigraphVertex }.

Inductive outcome : Type :=
  | Returns (g : Digraph)
  | Throws (e : exn) (g : Digraph)
  | UndefinedBehaviour.

(** [Digraph()] *)
Definition Digraph_new : Digraph := {| container := ∅ |}.

(** [Digraph(Digraph&& d)]: the body is [container = d.container;].  The
    named parameter [d] is an lvalue, so this is the copy assignment of
    [std::map].  The pair is (the constructed graph, [d] after the call). *)
Definition Digraph_move (d : Digraph) : Digraph * Digraph :=
  ({| container := container d |}, d).

(** [operator=(Digraph&& d)]: [container = d.container; return *this;].
    The pair is ([*this] after the call, [d] after the call). *)
Definition Digraph_move_assign (this d : Digraph) : Digraph * Digraph :=
  ({| container := container d |}, d).

(** [vertices()] *)
Definition vertices (g : Digraph) : list Z :=
  (map_iter (container g)).*1.

Definition edge_pair (e : DigraphEdge) : Z * Z := (fromVertex e, toVertex e).

(** [edges()] *)
Definition Digraph_edges (g : Digraph) : list (Z * Z) :=
  flat_map (fun kv => map edge_pair (edges kv.2)) (map_iter (container g)).

(** [edges(int vertex)] *)
Definition Digraph_edges_from (g : Digraph) (vertex : Z) : result (list (Z * Z)) :=
  match container g !! vertex with
  | None => Throw (DigraphException "When get edges fro ma vertex, can't find vertex!")
  | Some v => Ok (map edge_pair (edges v))
  end.

(** [vertexInfo(int vertex)] *)
Definition vertexInfo (g : Digraph) (vertex : Z) : result VertexInfo :=
  match container g !! vertex with
  | None => Throw (DigraphException "When vertexInfo, can't find vertex")
  | Some v => Ok (vinfo v)
  end.

(** The scan of [edgeInfo]: the first edge of the list whose [toVertex] is
    the one looked for. *)
Fixpoint find_edge (to : Z) (l : list DigraphEdge) : option DigraphEdge :=
  match l with
  | [] => None
  | e :: l' => if decide (toVertex e = to) then Some e else find_edge to l'
  end.

(** [edgeInfo(int fromVertex, int toVertex)] *)
Definition edgeInfo (g : Digraph) (from to : Z) : result EdgeInfo :=
  match container g !! from with
  | None => Throw (DigraphException "When edgeInfo, can't find fromVertex")
  | Some v =>
      match find_edge to (edges v) with
      | Some e => Ok (einfo e)
      | None => Throw (DigraphException "WHen edgeInfo, can't find toVertex")
      end
  end.

(** [addVertex]: the body is a single [container.insert(pair)], and
    [std::map::insert] leaves the map alone when the key is present. *)
Definition addVertex (g : Digraph) (vertex : Z) (vi : VertexInfo) : outcome :=
  match container g !! vertex with
  | Some _ => Returns g
  | None =>
      Returns {| container := <[vertex := {| vinfo := vi; edges := [] |}]> (container g) |}
  end.

(** [addEdge] *)
Definition addEdge (g : Digraph) (from to : Z) (ei : EdgeInfo) : outcome :=
  match container g !! from with
  | None => Throws (DigraphException "When add, can't find startVertex!") g
  | Some v =>
      match container g !! to with
      | None => Throws (DigraphException "When add, can't find endVertex!") g
      | Some _ =>
          Returns {| container :=
            <[from := {| vinfo := vinfo v;
                         edges := edges v ++ [mkEdge from to ei] |}]> (container g) |}
      end
  end.

(** The inner loop of [removeVertex] over one outgoing list:
    [for (it_list = temp.begin(); it_list != temp.end(); it_list++)
       if (it_list->toVertex == vertex) temp.erase(it_list);]
    [std::list::erase] invalidates [it_list]; the loop then increments the
    invalidated iterator, which is undefined. *)
Fixpoint erase_incoming (vertex : Z) (l : list DigraphEdge) : result (list DigraphEdge) :=
  match l with
  | [] => Ok []
  | e :: l' =>
      if decide (toVertex e = vertex) then Undefined
      else l'' ← erase_incoming vertex l' ; Ok (e :: l'')
  end.

(** The outer loop of [removeVertex] over the entries that remain. *)
Fixpoint removeVertex_loop (vertex : Z) (its : list (Z * DigraphVertex))
    (c : gmap Z DigraphVertex) : result (gmap Z DigraphVertex) :=
  match its with
  | [] => Ok c
  | (k, v) :: its' =>
      temp ← erase_incoming vertex (edges v) ;
      removeVertex_loop vertex its' (<[k := {| vinfo := vinfo v; edges := temp |}]> c)
  end.

(** [removeVertex] *)
Definition removeVertex (g : Digraph) (vertex : Z) : outcome :=
  match container g !! vertex with
  | None => Throws (DigraphException "When removeVertex, vertex not found!") g
  | Some _ =>
      let c := delete vertex (container g) in
      match removeVertex_loop vertex (map_iter c) c with
      | Ok c' => Returns {| container := c' |}
      | Throw e => Throws e {| container := c |}
      | Undefined | OutOfFuel => UndefinedBehaviour
      end
  end.

(** The loop of [removeEdge]: erase the first match and return. *)
Fixpoint erase_first (to : Z) (l : list DigraphEdge) : option (list DigraphEdge) :=
  match l with
  | [] => None
  | e :: l' =>
      if decide (toVertex e = to) then Some l'
      else cons e <$> erase_first to l'
  end.

(** [removeEdge] *)
Definition removeEdge (g : Digraph) (from to : Z) : outcome :=
  match container g !! from with
  | None => Throws (DigraphException "When removeEdge, fromVertex not found!") g
  | Some v =>
      match erase_first to (edges v) with
      | Some temp =>
          Returns {| container :=
            <[from := {| vinfo := vinfo v; edges := temp |}]> (container g) |}
      | None => Throws (DigraphException "When removeEdge, toVertex not found!") g
      end
  end.

(** [vertexCount()] *)
Definition vertexCount (g : Digraph) : Z := Z.of_nat (size (container g)).

(** [edgeCount()] *)
Definition edgeCount (g : Digraph) : Z :=
  foldl (fun edgeNum kv => edgeNum + Z.of_nat (length (edges kv.2))) 0
        (map_iter (container g)).

(** [edgeCount(int vertex)] *)
Definition edgeCount_from (g : Digraph) (vertex : Z) : result Z :=
  match container g !! vertex with
  | None => Throw (DigraphException "When edgeCount, vertex not found!")
  | Some v => Ok (Z.of_nat (length (edges v)))
  end.

End Digraph.

Arguments DigraphEdge : clear implicits.
Arguments DigraphVertex : clear implicits.
Arguments Digraph : clear implicits.
Arguments outcome : clear implicits.

(** ** Strong connectivity *)

Section StronglyConnected.

Context {VertexInfo EdgeInfo : Type}.
Abbreviation Graph := (Digraph VertexInfo EdgeInfo).
Abbreviation Vertex := (DigraphVertex VertexInfo EdgeInfo).
Abbreviation Edge := (DigraphEdge EdgeInfo).

(** [visitRecords[k]]: [operator[]] of [std::map<int,bool>] first inserts
    [false] when the key is missing. *)
Definition visit_at (k : Z) (visitRecords : gmap Z bool) : bool * gmap Z bool :=
  match visitRecords !! k with
  | Some b => (b, visitRecords)
  | None => (false, <[k := false]> visitRecords)
  end.

(** The [for] loop of [DFTr] over the outgoing list; [self] is the recursive
    call, and [container.at] throws [std::out_of_range] on a missing key. *)
Fixpoint DFTr_edges (self : Z -> Vertex -> gmap Z bool -> result (gmap Z bool))
    (g : Graph) (l : list Edge) (visitRecords : gmap Z bool)
    : result (gmap Z bool) :=
  match l with
  | [] => Ok visitRecords
  | e :: l' =>
      let '(seen, visitRecords) := visit_at (toVertex e) visitRecords in
      if seen then DFTr_edges self g l' visitRecords
      else
        match container g !! toVertex e with
        | None => Throw out_of_range
        | Some w =>
            visitRecords ← self (toVertex e) w visitRecords;
            DFTr_edges self g l' visitRecords
        end
  end.

(** [DFTr]; [fuel] bounds the depth of the recursion. *)
Fixpoint DFTr (fuel : nat) (g : Graph) (vertexIndex : Z) (v : Vertex)
    (visitRecords : gmap Z bool) : result (gmap Z bool) :=
  match fuel with
  | O => OutOfFuel
  | S fuel' =>
      DFTr_edges (DFTr fuel' g) g (edges v) (<[vertexIndex := true]> visitRecords)
  end.

(** [countConnectVertices] *)
Definition countConnectVertices (visitRecords : gmap Z bool) : Z :=
  foldl (fun count kv => if kv.2 : bool then count + 1 else count) 0
        (map_iter visitRecords).

(** The inner loop of [isStronglyConnected]:
    [visitRecords[it_2->first] = false] for every entry. *)
Definition reset_visit (g : Graph) (visitRecords : gmap Z bool) : gmap Z bool :=
  foldl (fun vr kv => <[kv.1 := false]> vr) visitRecords (map_iter (container g)).

(** The outer loop of [isStronglyConnected]. *)
Fixpoint isStronglyConnected_loop (g : Graph) (sz : Z)
    (its : list (Z * Vertex)) (visitRecords : gmap Z bool) : result bool :=
  match its with
  | [] => Ok true
  | (k, v) :: its' =>
      let visitRecords := reset_visit g visitRecords in
      visitRecords ← DFTr (size (container g)) g k v visitRecords;
      if decide (countConnectVertices visitRecords ≠ sz) then Ok false
      else isStronglyConnected_loop g sz its' visitRecords
  end.

(** [isStronglyConnected()] *)
Definition isStronglyConnected (g : Graph) : result bool :=
  isStronglyConnected_loop g (vertexCount g) (map_iter (container g)) ∅.

End StronglyConnected.

(** ** Shortest paths *)

Record DijkstraInfo : Type := mkDijkstraInfo
  { kFlag : bool;
    d : Z;
    p : Z }.

(** [Compare::operator()] *)
Definition Compare (lhs rhs : Z * Z) : bool := lhs.1 <? rhs.1.

Definition INT_MAX : Z := 2147483647.
Definition INT_MIN : Z := -2147483648.

(** [std::priority_queue<std::pair<int,int>, std::vector<...>, Compare>]:
    the operations that [findShortestPaths] calls.  [top()] on an empty queue
    is undefined; [pq_top] answers [None] there. *)
Class PriorityQueue : Type :=
  { pqueue : Type;
    pq_empty : pqueue;
    pq_push : Z * Z -> pqueue -> pqueue;
    pq_top : pqueue -> option (Z * Z);
    pq_pop : pqueue -> pqueue;
    pq_size : pqueue -> nat }.

(** The contract of [std::priority_queue].  The standard fixes what [top()]
    returns only up to the comparison: an element that [Compare] puts below no
    other element of the queue.  Which of several such elements is returned
    depends on the heap layout.  [pq_items] is the multiset of elements that
    the queue holds. *)
Class PriorityQueueSpec (PQ : PriorityQueue) : Type :=
  { pq_items : pqueue -> list (Z * Z);
    pq_items_empty : pq_items pq_empty = [];
    pq_items_push x q : pq_items (pq_push x q) ≡ₚ x :: pq_items q;
    pq_size_items q : pq_size q = length (pq_items q);
    pq_top_nonempty q : pq_items q ≠ [] -> is_Some (pq_top q);
    pq_top_pop q x :
      pq_top q = Some x ->
      pq_items q ≡ₚ x :: pq_items (pq_pop q) ∧
      ∀ y, y ∈ pq_items q -> Compare x y = false }.

(** A queue kept as the list of its elements in insertion order; [top()] is
    the earliest inserted among the greatest elements. *)
Fixpoint list_top (q : list (Z * Z)) : option (Z * Z) :=
  match q with
  | [] => None
  | x :: q' =>
      match list_top q' with
      | None => Some x
      | Some y => if Compare x y then Some y else Some x
      end
  end.

Fixpoint list_remove (x : Z * Z) (q : list (Z * Z)) : list (Z * Z) :=
  match q with
  | [] => []
  | y :: q' => if decide (x = y) then q' else y :: list_remove x q'
  end.

Definition list_pop (q : list (Z * Z)) : list (Z * Z) :=
  match list_top q with
  | None => q
  | Some x => list_remove x q
  end.

#[export] Instance ListPQ : PriorityQueue :=
  {| pqueue := list (Z * Z);
     pq_empty := [];
     pq_push x q := q ++ [x];
     pq_top := list_top;
     pq_pop := list_pop;
     pq_size := length |}.

(** The list queue again, except that [top()] gives no answer when two
    elements of the queue have the same key.  A run of the loop that ends
    normally with this queue never had to choose between equal keys. *)
Definition TieFreePQ : PriorityQueue :=
  {| pqueue := list (Z * Z);
     pq_empty := [];
     pq_push x q := q ++ [x];
     pq_top q := if bool_decide (NoDup q.*1) then list_top q else None;
     pq_pop := list_pop;
     pq_size := length |}.

(** [(double) -> int]: truncation toward zero, undefined out of range. *)
Definition double_to_int (x : Q) : result Z :=
  let t := Z.quot (Qnum x) (Z.pos (Qden x)) in
  if decide (INT_MIN <= t <= INT_MAX) then Ok t else Undefined.

Definition Qltb (x y : Q) : bool :=
  match (x ?= y)%Q with
  | Lt => true
  | _ => false
  end.

(** [operator+] on [double]: [fl x] is the binary64 value to which the exact
    sum [x] is rounded, and [None] when that value is not finite; it is then
    the infinity that has the sign of [x]. *)
Class Rounding : Type :=
  { fl : Q -> option Q }.

(** What the general statements ask of the rounding: a sum that is not
    negative is not rounded below zero. *)
Class RoundingSpec (R : Rounding) : Prop :=
  { fl_nonneg x y : (0 <= x)%Q -> fl x = Some y -> (0 <= y)%Q }.

(** [fl] rounds the sum [x] to the value [y]. *)
Definition fl_rounds {R : Rounding} (x y : Q) : Prop :=
  ∃ y', fl x = Some y' ∧ (y' == y)%Q.

(** [fl] returns the sum [x] unchanged: [x] is a binary64 value. *)
Definition fl_exact {R : Rounding} (x : Q) : Prop :=
  fl_rounds x x.

(** The rounding that changes no sum. *)
Definition ExactRounding : Rounding :=
  {| fl x := Some x |}.

#[export] Instance Q_eq_dec : EqDecision Q.
Proof. solve_decision. Defined.

(** A rounding for reference runs, given by a table of sums and their
    rounded values: a sum that the table does not list is sent below the
    range of [int].  A run that ends normally with this rounding has only
    added up to listed sums. *)
Fixpoint table_lookup (x : Q) (table : list (Q * Q)) : option Q :=
  match table with
  | [] => None
  | (x', y) :: table' => if decide (x = x') then Some y else table_lookup x table'
  end.

Definition TableRounding (table : list (Q * Q)) : Rounding :=
  {| fl x :=
       match table_lookup x table with
       | Some y => Some y
       | None => Some (inject_Z (INT_MIN - 1))
       end |}.

(** The table that lists every sum of [sums] as its own rounded value. *)
Definition exact_table (sums : list Q) : list (Q * Q) :=
  (fun x => (x, x)) <$> sums.

Section ShortestPaths.

Context {VertexInfo EdgeInfo : Type} {PQ : PriorityQueue} {R : Rounding}.
Abbreviation Graph := (Digraph VertexInfo EdgeInfo).
Abbreviation Vertex := (DigraphVertex VertexInfo EdgeInfo).
Abbreviation Edge := (DigraphEdge EdgeInfo).

(** [vData[k]]: [operator[]] of [std::map<int,DijkstraInfo>] first inserts a
    value-initialised [DijkstraInfo] when the key is missing. *)
Definition vData_at (k : Z) (vData : gmap Z DijkstraInfo)
    : DijkstraInfo * gmap Z DijkstraInfo :=
  match vData !! k with
  | Some i => (i, vData)
  | None =>
      let i := {| kFlag := false; d := 0; p := 0 |} in (i, <[k := i]> vData)
  end.

(** One turn of the [for] loop over [edges_list].  [vD] and [wD] are
    references into [vData], so [vD.d] is read from the map as it stands.
    [vD.d + edgeWeightFunc(...)] converts [vD.d] to [double] (exactly) and
    adds in binary64; the rounded sum is what is compared with [wD.d] and
    what is converted to [int].  An infinite sum is greater than every [int]
    when positive, so nothing is stored; when negative it is less than [wD.d]
    and its conversion to [int] is undefined. *)
Definition relax (edgeWeightFunc : EdgeInfo -> Q) (vIndex : Z)
    (st : gmap Z DijkstraInfo * pqueue) (e : Edge)
    : result (gmap Z DijkstraInfo * pqueue) :=
  let '(vData, pq) := st in
  let '(wD, vData) := vData_at (toVertex e) vData in
  let '(vD, vData) := vData_at vIndex vData in
  let exact := (inject_Z (d vD) + edgeWeightFunc (einfo e))%Q in
  match fl exact with
  | Some sum =>
      if Qltb sum (inject_Z (d wD)) then
        wd ← double_to_int sum;
        Ok (<[toVertex e := {| kFlag := kFlag wD; d := wd; p := vIndex |}]> vData,
            pq_push (wd, toVertex e) pq)
      else Ok (vData, pq)
  | None => if Qltb exact 0 then Undefined else Ok (vData, pq)
  end.

Fixpoint relax_all (edgeWeightFunc : EdgeInfo -> Q) (vIndex : Z)
    (edges_list : list Edge) (st : gmap Z DijkstraInfo * pqueue)
    : result (gmap Z DijkstraInfo * pqueue) :=
  match edges_list with
  | [] => Ok st
  | e :: l' =>
      st ← relax edgeWeightFunc vIndex st e;
      relax_all edgeWeightFunc vIndex l' st
  end.

(** The [while (pqueue.size() != 0)] loop. *)
Fixpoint dijkstra_loop (fuel : nat) (g : Graph) (edgeWeightFunc : EdgeInfo -> Q)
    (vData : gmap Z DijkstraInfo) (pq : pqueue) : result (gmap Z DijkstraInfo) :=
  match fuel with
  | O => OutOfFuel
  | S fuel' =>
      if decide (pq_size pq = 0%nat) then Ok vData
      else
        match pq_top pq with
        | None => Undefined
        | Some top =>
            let vIndex := top.2 in
            let '(vD, vData) := vData_at vIndex vData in
            let pq := pq_pop pq in
            if kFlag vD then dijkstra_loop fuel' g edgeWeightFunc vData pq
            else
              let vData := <[vIndex := {| kFlag := true; d := d vD; p := p vD |}]> vData in
              match container g !! vIndex with
              | None => Throw out_of_range
              | Some v =>
                  '(vData, pq) ← relax_all edgeWeightFunc vIndex (edges v) (vData, pq);
                  dijkstra_loop fuel' g edgeWeightFunc vData pq
              end
        end
  end.

(** The initialisation of [vData]. *)
Definition init_vData (g : Graph) (startVertex : Z) : gmap Z DijkstraInfo :=
  let vData :=
    foldl (fun vData kv =>
             <[kv.1 := {| kFlag := false; d := INT_MAX; p := kv.1 |}]> vData)
          ∅ (map_iter (container g)) in
  let '(i, vData) := vData_at startVertex vData in
  let vData := <[startVertex := {| kFlag := kFlag i; d := 0; p := p i |}]> vData in
  let '(i, vData) := vData_at startVertex vData in
  <[startVertex := {| kFlag := kFlag i; d := d i; p := startVertex |}]> vData.

(** Every turn of the loop pops one element, and an element is pushed only
    while the edges of a vertex are relaxed, once per vertex. *)
Definition dijkstra_fuel (g : Graph) : nat :=
  S (S (Z.to_nat (edgeCount g))).

(** [findShortestPaths] up to the loop: the final [vData]. *)
Definition findShortestPaths_vData (g : Graph) (startVertex : Z)
    (edgeWeightFunc : EdgeInfo -> Q) : result (gmap Z DijkstraInfo) :=
  match container g !! startVertex with
  | None => Throw (DigraphException "When findShortestPaths, startVertex not found!")
  | Some _ =>
      dijkstra_loop (dijkstra_fuel g) g edgeWeightFunc
        (init_vData g startVertex) (pq_push (0, startVertex) pq_empty)
  end.

(** [findShortestPaths] *)
Definition findShortestPaths (g : Graph) (startVertex : Z)
    (edgeWeightFunc : EdgeInfo -> Q) : result (gmap Z Z) :=
  match findShortestPaths_vData g startVertex edgeWeightFunc with
  | Ok vData => Ok (p <$> vData)
  | Throw e => Throw e
  | Undefined => Undefined
  | OutOfFuel => OutOfFuel
  end.

End ShortestPaths.

(** ** Sequences of mutating calls *)

Section Mutations.

Context {VertexInfo EdgeInfo : Type}.
Abbreviation Graph := (Digraph VertexInfo EdgeInfo).

Inductive mutation : Type :=
  | AddVertex (vertex : Z) (vi : VertexInfo)
  | AddEdge (from to : Z) (ei : EdgeInfo)
  | RemoveVertex (vertex : Z)
  | RemoveEdge (from to : Z).

Definition apply_mutation (g : Graph) (m : mutation) : outcome VertexInfo EdgeInfo :=
  match m with
  | AddVertex vertex vi => addVertex g vertex vi
  | AddEdge from to ei => addEdge g from to ei
  | RemoveVertex vertex => removeVertex g vertex
  | RemoveEdge from to => removeEdge g from to
  end.

(** The calls are made in order; the first one that does not return
    normally ends the sequence. *)
Fixpoint apply_mutations (g : Graph) (ms : list mutation) : outcome VertexInfo EdgeInfo :=
  match ms with
  | [] => Returns g
  | m :: ms' =>
      match apply_mutation g m with
      | Returns g' => apply_mutations g' ms'
      | o => o
      end
  end.

(** The graphs a client can build: the empty graph and whatever a call
    that returned normally made of such a graph. *)
Inductive constructible : Graph -> Prop :=
  | constructible_new : constructible Digraph_new
  | constructible_step g m g' :
      constructible g -> apply_mutation g m = Returns g' -> constructible g'.

(** Every edge is stored in the list of its [fromVertex], and its
    [toVertex] is a vertex of the graph. *)
Definition well_formed (g : Graph) : Prop :=
  ∀ k v e, container g !! k = Some v -> e ∈ edges v ->
    fromVertex e = k ∧ is_Some (container g !! toVertex e).

(** [u -> w] is an edge of the graph. *)
Definition has_edge (g : Graph) (u w : Z) : Prop :=
  ∃ v e, container g !! u = Some v ∧ e ∈ edges v ∧ toVertex e = w.

(** [w] can be reached from [u] along directed edges. *)
Definition reachable (g : Graph) : relation Z := rtc (has_edge g).

End Mutations.

Arguments mutation : clear implicits.

(** ** Vocabulary of the statements *)

Section Vocabulary.

Context {VertexInfo EdgeInfo : Type}.
Context {PQ : PriorityQueue} {PQS : PriorityQueueSpec PQ}.
Abbreviation Graph := (Digraph VertexInfo EdgeInfo).
Abbreviation Vertex := (DigraphVertex VertexInfo EdgeInfo).
Abbreviation Edge := (DigraphEdge EdgeInfo).

(** Every vertex can reach every other vertex. *)
Definition strongly_connected (g : Graph) : Prop :=
  ∀ u w, is_Some (container g !! u) -> is_Some (container g !! w) ->
    reachable g u w.

(** The total weight of the path that visits the given vertices in order,
    when each step is an edge of the graph. *)
Fixpoint path_weight (g : Graph) (edgeWeightFunc : EdgeInfo -> Q)
    (path : list Z) : option Q :=
  match path with
  | [] => None
  | u :: rest =>
      match rest with
      | [] => Some 0%Q
      | u' :: _ =>
          v ← container g !! u;
          e ← find_edge u' (edges v);
          r ← path_weight g edgeWeightFunc rest;
          Some (edgeWeightFunc (einfo e) + r)%Q
      end
  end.

(** [visitRecords[k] == true] *)
Definition marked (visitRecords : gmap Z bool) (k : Z) : Prop :=
  visitRecords !! k = Some true.

(** The vertices of the graph that are not marked yet. *)
Definition unmarked (g : Graph) (visitRecords : gmap Z bool) : gset Z :=
  filter (fun k => visitRecords !! k ≠ Some true) (dom (container g)).

(** What a traversal started at [k] from the records [vr] leaves in [vr']:
    the keys are still those of the graph, marks are kept, and every vertex
    marked on the way can be reached from [k] and has all its successors
    marked. *)
Definition traversed (g : Graph) (k : Z) (vr vr' : gmap Z bool) : Prop :=
  dom vr' = dom (container g) ∧
  (∀ u, marked vr u -> marked vr' u) ∧
  (∀ u, marked vr' u -> ¬ marked vr u ->
     reachable g k u ∧ ∀ w, has_edge g u w -> marked vr' w).

(** [vData[k].kFlag], for a key that is present. *)
Definition finalized (vData : gmap Z DijkstraInfo) (k : Z) : bool :=
  match vData !! k with
  | Some i => kFlag i
  | None => false
  end.

(** What is left to push: the out-degrees of the vertices not finalised. *)
Definition pending_of (fin : Z -> bool) (l : list (Z * Vertex)) : nat :=
  sum_list_with (fun kv => if fin kv.1 then 0%nat else length (edges kv.2)) l.

Definition pending (g : Graph) (vData : gmap Z DijkstraInfo) : nat :=
  pending_of (finalized vData) (map_iter (container g)).

(** The invariant of the [while] loop of [findShortestPaths]. *)
Record dijkstra_inv (g : Graph) (startVertex : Z)
    (vData : gmap Z DijkstraInfo) (pq : pqueue) : Prop :=
  { inv_dom : dom vData = dom (container g);
    inv_range : ∀ k i, vData !! k = Some i -> 0 <= d i <= INT_MAX;
    inv_start : ∃ i, vData !! startVertex = Some i ∧ d i = 0 ∧ p i = startVertex;
    inv_queue : ∀ x, x ∈ pq_items pq -> reachable g startVertex x.2;
    inv_pred : ∀ k i, vData !! k = Some i -> p i = k ∨ reachable g startVertex k }.

End Vocabulary.

(** ** Concrete graphs

    Each graph comes with the calls that build it from the empty graph. *)

Local Open Scope string_scope.

(** One vertex. *)
Definition build_single : list (mutation string Q) :=
  [AddVertex 1 "a"].

Definition graph_single : Digraph string Q :=
  {| container := {[ 1 := {| vinfo := "a"; edges := [] |} ]} |}.

(** Vertices [1], [2] and no edge. *)
Definition build_no_edge : list (mutation string Q) :=
  [AddVertex 1 "A"; AddVertex 2 "B"].

Definition graph_no_edge : Digraph string Q :=
  {| container :=
       {[ 1 := {| vinfo := "A"; edges := [] |};
          2 := {| vinfo := "B"; edges := [] |} ]} |}.

(** Vertices [1], [2] and the edge [1 -> 2]. *)
Definition build_one_edge : list (mutation string Q) :=
  [AddVertex 1 "a"; AddVertex 2 "b"; AddEdge 1 2 10%Q].

Definition graph_one_edge : Digraph string Q :=
  {| container :=
       {[ 1 := {| vinfo := "a"; edges := [mkEdge 1 2 10%Q] |};
          2 := {| vinfo := "b"; edges := [] |} ]} |}.

(** The same with the edge [1 -> 2] added twice. *)
Definition graph_two_edges : Digraph string Q :=
  {| container :=
       {[ 1 := {| vinfo := "a"; edges := [mkEdge 1 2 10%Q; mkEdge 1 2 20%Q] |};
          2 := {| vinfo := "b"; edges := [] |} ]} |}.

(** The cycle [1 -> 2 -> 3 -> 1]. *)
Definition build_cycle : list (mutation string Q) :=
  [AddVertex 1 "a"; AddVertex 2 "b"; AddVertex 3 "c";
   AddEdge 1 2 1%Q; AddEdge 2 3 1%Q; AddEdge 3 1 1%Q].

Definition graph_cycle : Digraph string Q :=
  {| container :=
       {[ 1 := {| vinfo := "a"; edges := [mkEdge 1 2 1%Q] |};
          2 := {| vinfo := "b"; edges := [mkEdge 2 3 1%Q] |};
          3 := {| vinfo := "c"; edges := [mkEdge 3 1 1%Q] |} ]} |}.

(** Whole weights: [1 -> 2] (1), [1 -> 3] (5), [1 -> 4] (6), [2 -> 3] (1),
    [3 -> 4] (1).  The lightest path to [4] is [1, 2, 3, 4], of weight 3. *)
Definition build_detour : list (mutation string Q) :=
  [AddVertex 1 "a"; AddVertex 2 "b"; AddVertex 3 "c"; AddVertex 4 "d";
   AddEdge 1 2 1%Q; AddEdge 1 3 5%Q; AddEdge 1 4 6%Q;
   AddEdge 2 3 1%Q; AddEdge 3 4 1%Q].

Definition graph_detour : Digraph string Q :=
  {| container :=
       {[ 1 := {| vinfo := "a";
                  edges := [mkEdge 1 2 1%Q; mkEdge 1 3 5%Q; mkEdge 1 4 6%Q] |};
          2 := {| vinfo := "b"; edges := [mkEdge 2 3 1%Q] |};
          3 := {| vinfo := "c"; edges := [mkEdge 3 4 1%Q] |};
          4 := {| vinfo := "d"; edges := [] |} ]} |}.

(** Fractional weights: [1 -> 2] (3/4), [1 -> 3] (3/2), [2 -> 3] (7/8).
    The lightest path to [3] is the edge [1 -> 3]: 3/2 < 3/4 + 7/8. *)
Definition build_fractional : list (mutation string Q) :=
  [AddVertex 1 "a"; AddVertex 2 "b"; AddVertex 3 "c";
   AddEdge 1 2 (3 # 4)%Q; AddEdge 1 3 (3 # 2)%Q; AddEdge 2 3 (7 # 8)%Q].

Definition graph_fractional : Digraph string Q :=
  {| container :=
       {[ 1 := {| vinfo := "a";
                  edges := [mkEdge 1 2 (3 # 4)%Q; mkEdge 1 3 (3 # 2)%Q] |};
          2 := {| vinfo := "b"; edges := [mkEdge 2 3 (7 # 8)%Q] |};
          3 := {| vinfo := "c"; edges := [] |} ]} |}.

(** The weight of an edge is the magnitude of its payload, so that no
    payload has a negative weight. *)
(** Every distance stored in [vData] is an [int]. *)
Definition above_int_min (vData : gmap Z DijkstraInfo) : Prop :=
  ∀ k i, vData !! k = Some i -> INT_MIN <= d i.

Definition weight_of (ei : Q) : Q := Qabs ei.

Local Close Scope string_scope.


(** ** Vocabulary of the further statements *)

(** The pairs that [edges()] lists for the given entries. *)
Definition pairs_of {VertexInfo EdgeInfo : Type}
    (l : list (Z * DigraphVertex VertexInfo EdgeInfo)) : list (Z * Z) :=
  flat_map (fun kv => map edge_pair (edges kv.2)) l.

(** The order of the keys. *)
Definition key_lt {A : Type} (x y : Z * A) : Prop := x.1 < y.1.

(** What the records of [vData] say about predecessors: a predecessor
    other than the vertex itself is the source of an edge into the vertex
    and can be reached from the start. *)
Definition predecessors_are_edges {VertexInfo EdgeInfo : Type}
    (g : Digraph VertexInfo EdgeInfo) (startVertex : Z)
    (vData : gmap Z DijkstraInfo) : Prop :=
  ∀ k i, vData !! k = Some i ->
    p i = k ∨ (has_edge g (p i) k ∧ reachable g startVertex (p i)).

(** ** Copies *)

Section Copies.

Context {VertexInfo EdgeInfo : Type}.
Abbreviation Graph := (Digraph VertexInfo EdgeInfo).
Abbreviation Vertex := (DigraphVertex VertexInfo EdgeInfo).
Abbreviation Edge := (DigraphEdge EdgeInfo).

(** The inner loop of the copy constructor and of the copy assignment:
    [addEdge(vertexIndex, it_list->toVertex, it_list->einfo)] for every
    edge of the list being copied. *)
Fixpoint copy_edges (this : Graph) (vertexIndex : Z) (l : list Edge)
    : outcome VertexInfo EdgeInfo :=
  match l with
  | [] => Returns this
  | e :: l' =>
      match addEdge this vertexIndex (toVertex e) (einfo e) with
      | Returns this' => copy_edges this' vertexIndex l'
      | o => o
      end
  end.

(** The outer loop: [addVertex(vertexIndex, it->second.vinfo)] and then
    the edges of that vertex, for every entry of [d.container]. *)
Fixpoint copy_loop (this : Graph) (its : list (Z * Vertex))
    : outcome VertexInfo EdgeInfo :=
  match its with
  | [] => Returns this
  | (vertexIndex, v) :: its' =>
      match addVertex this vertexIndex (vinfo v) with
      | Returns this' =>
          match copy_edges this' vertexIndex (edges v) with
          | Returns this'' => copy_loop this'' its'
          | o => o
          end
      | o => o
      end
  end.

(** [Digraph(const Digraph& d)].  When the constructor throws, no graph is
    constructed; the graph carried by [Throws] is the container as it is at
    the throw. *)
Definition Digraph_copy (d : Graph) : outcome VertexInfo EdgeInfo :=
  copy_loop Digraph_new (map_iter (container d)).

(** [operator=(const Digraph& d)]: [container.clear()], then the loop of the
    copy constructor over [d.container].  [d = None] stands for the self
    assignment [g = g], in which [d.container] is the container that has
    just been cleared. *)
Definition Digraph_copy_assign (this : Graph) (d : option Graph)
    : outcome VertexInfo EdgeInfo :=
  let cleared : Graph := {| container := ∅ |} in
  let source := match d with Some d => d | None => cleared end in
  copy_loop cleared (map_iter (container source)).

(** No pair of [edges()] goes from a vertex to one with a greater
    identifier. *)
Definition no_forward_edge (g : Graph) : Prop :=
  ∀ a b, (a, b) ∈ Digraph_edges g -> b <= a.

(** The entries can be copied in this order when the vertices in [present]
    exist already: every edge goes to a vertex added before it. *)
Fixpoint copyable (present : gset Z) (its : list (Z * Vertex)) : Prop :=
  match its with
  | [] => True
  | (k, v) :: its' =>
      Forall (fun e => toVertex e ∈ present ∪ {[ k ]}) (edges v) ∧
      copyable (present ∪ {[ k ]}) its'
  end.

End Copies.

(** Vertices [1], [2] and the edge [2 -> 1]. *)
(** Three vertices; the edge [2 -> 3] weighs [1 - 2^-53], so that the path
    [1, 2, 3] weighs [2 - 2^-53], which is not a binary64 value. *)
Definition below_one : Q := (9007199254740991 # 9007199254740992)%Q.

Definition build_rounded : list (mutation string Q) :=
  [AddVertex 1 "a"%string; AddVertex 2 "b"%string; AddVertex 3 "c"%string;
   AddEdge 1 2 1%Q; AddEdge 1 3 2%Q; AddEdge 2 3 below_one].

Definition graph_rounded : Digraph string Q :=
  {| container :=
       {[ 1 := {| vinfo := "a"%string;
                  edges := [mkEdge 1 2 1%Q; mkEdge 1 3 2%Q] |};
          2 := {| vinfo := "b"%string; edges := [mkEdge 2 3 below_one] |};
          3 := {| vinfo := "c"%string; edges := [] |} ]} |}.

Definition build_back_edge : list (mutation string Q) :=
  [AddVertex 1 "a"%string; AddVertex 2 "b"%string; AddEdge 2 1 10%Q].

Definition graph_back_edge : Digraph string Q :=
  {| container :=
       {[ 1 := {| vinfo := "a"%string; edges := [] |};
          2 := {| vinfo := "b"%string; edges := [mkEdge 2 1 10%Q] |} ]} |}.

(** ** The list queue meets the interface *)

Lemma list_top_elem_of q x : list_top q = Some x -> x ∈ q.
Proof.
  revert x. induction q as [|y q IH]; intros x; simpl; [done|].
  destruct (list_top q) as [z|] eqn:Hz.
  - destruct (Compare y z); intros [= <-].
    + right. by apply IH.
    + left.
  - intros [= <-]. left.
Qed.

Lemma list_top_is_Some q : q ≠ [] -> is_Some (list_top q).
Proof.
  destruct q as [|y q]; [done|]. intros _. simpl.
  destruct (list_top q) as [z|]; [destruct (Compare y z)|]; eauto.
Qed.

Lemma list_top_greatest q x y :
  list_top q = Some x -> y ∈ q -> Compare x y = false.
Proof.
  unfold Compare. revert x y.
  induction q as [|a q IH]; intros x y; simpl; [done|].
  destruct (list_top q) as [z|] eqn:Hz.
  - destruct (Compare a z) eqn:Haz; unfold Compare in Haz;
      intros [= <-] [->|Hy]%elem_of_cons.
    + lia.
    + by apply IH.
    + lia.
    + specialize (IH z y eq_refl Hy). lia.
  - intros [= <-] [->|Hy]%elem_of_cons; [lia|].
    destruct q; [by apply elem_of_nil in Hy|].
    by destruct (list_top_is_Some (p0 :: q)) as [? ?]; [|simplify_eq].
Qed.

Lemma list_remove_perm x q : x ∈ q -> q ≡ₚ x :: list_remove x q.
Proof.
  induction q as [|y q IH]; simpl; [by intros ?%elem_of_nil|].
  destruct (decide (x = y)) as [->|Hne]; [done|].
  intros [?|Hx]%elem_of_cons; [done|].
  rewrite (IH Hx) at 1. apply Permutation_swap.
Qed.

Lemma list_push_perm (x : Z * Z) (q : list (Z * Z)) : q ++ [x] ≡ₚ x :: q.
Proof. by rewrite Permutation_app_comm. Qed.

Lemma list_top_pop (q : list (Z * Z)) (x : Z * Z) :
  list_top q = Some x ->
  q ≡ₚ x :: list_pop q ∧ ∀ y, y ∈ q -> Compare x y = false.
Proof.
  intros Hx. unfold list_pop. rewrite Hx. split.
  - apply list_remove_perm. by apply list_top_elem_of.
  - intros y. by apply list_top_greatest.
Qed.

#[export] Instance ListPQ_spec : PriorityQueueSpec ListPQ :=
  {| pq_items q := q : list (Z * Z);
     pq_items_empty := eq_refl;
     pq_items_push := list_push_perm;
     pq_size_items q := eq_refl;
     pq_top_nonempty := list_top_is_Some;
     pq_top_pop := list_top_pop |}.

(** ** Facts on the iteration order *)

Lemma map_iter_perm {A : Type} (m : gmap Z A) : map_iter m ≡ₚ map_to_list m.
Proof. apply merge_sort_Permutation. Qed.

Lemma elem_of_map_iter {A : Type} (m : gmap Z A) k v :
  (k, v) ∈ map_iter m ↔ m !! k = Some v.
Proof. rewrite map_iter_perm. apply elem_of_map_to_list. Qed.

Lemma length_map_iter {A : Type} (m : gmap Z A) : length (map_iter m) = size m.
Proof. by rewrite map_iter_perm, length_map_to_list. Qed.

Lemma map_iter_empty {A : Type} : map_iter (∅ : gmap Z A) = [].
Proof. apply length_zero_iff_nil. by rewrite length_map_iter, map_size_empty. Qed.

Lemma elem_of_map_iter_keys {A : Type} (m : gmap Z A) (k : Z) :
  k ∈ (map_iter m).*1 ↔ is_Some (m !! k).
Proof.
  rewrite list_elem_of_fmap. split.
  - intros ([j v]&->&Hin). apply elem_of_map_iter in Hin. simpl. eauto.
  - intros [v Hv]. exists (k, v). split; [done|]. by apply elem_of_map_iter.
Qed.

Lemma NoDup_map_iter_keys {A : Type} (m : gmap Z A) : NoDup (map_iter m).*1.
Proof.
  rewrite map_iter_perm. apply NoDup_fst_map_to_list.
Qed.

Lemma foldl_insert_keys {A B : Type} (f : Z -> B) (l : list (Z * A))
    (m : gmap Z B) (k : Z) :
  (k ∈ l.*1 -> foldl (fun m kv => <[kv.1 := f kv.1]> m) m l !! k = Some (f k)) ∧
  (k ∉ l.*1 -> foldl (fun m kv => <[kv.1 := f kv.1]> m) m l !! k = m !! k).
Proof.
  revert m. induction l as [|[j v] l IH]; intros m.
  - split; [by intros ?%elem_of_nil|done].
  - cbn [foldl fmap list_fmap fst].
    destruct (IH (<[j := f j]> m)) as [IHin IHout].
    destruct (decide (k ∈ l.*1)) as [Hin|Hin].
    + split; [by intros _; apply IHin|]. intros Hk. exfalso. apply Hk. by right.
    + rewrite (IHout Hin), lookup_insert. split.
      * intros [->|?]%elem_of_cons; [|done]. by rewrite decide_True.
      * intros Hk. rewrite decide_False; [done|]. intros ->. apply Hk. left.
Qed.

(** ** Structural operations *)

Section StructuralFacts.

Context {VertexInfo EdgeInfo : Type}.
Abbreviation Graph := (Digraph VertexInfo EdgeInfo).
Abbreviation Vertex := (DigraphVertex VertexInfo EdgeInfo).
Abbreviation Edge := (DigraphEdge EdgeInfo).

Lemma vertex_eta (v : Vertex) : {| vinfo := vinfo v; edges := edges v |} = v.
Proof. by destruct v. Qed.

Lemma digraph_eta (g : Graph) : {| container := container g |} = g.
Proof. by destruct g. Qed.

(** The scan of [removeVertex] either meets no edge into [vertex] and leaves
    the list as it is, or meets one and is undefined. *)
Lemma erase_incoming_cases (vertex : Z) (l : list Edge) :
  (erase_incoming vertex l = Ok l ∧ Forall (fun e => toVertex e ≠ vertex) l) ∨
  (erase_incoming vertex l = Undefined ∧ Exists (fun e => toVertex e = vertex) l).
Proof.
  induction l as [|e l IH]; simpl.
  - left. by split.
  - destruct (decide (toVertex e = vertex)) as [He|He].
    + right. split; [done|]. by left.
    + destruct IH as [[-> Hl]|[-> Hl]]; simpl.
      * left. split; [done|]. by constructor.
      * right. split; [done|]. by right.
Qed.

Lemma removeVertex_loop_cases (vertex : Z) (its : list (Z * Vertex))
    (c : gmap Z Vertex) :
  (∀ k v, (k, v) ∈ its -> c !! k = Some v) ->
  (removeVertex_loop vertex its c = Ok c ∧
     ∀ k v e, (k, v) ∈ its -> e ∈ edges v -> toVertex e ≠ vertex) ∨
  (removeVertex_loop vertex its c = Undefined ∧
     ∃ k v e, (k, v) ∈ its ∧ e ∈ edges v ∧ toVertex e = vertex).
Proof.
  induction its as [|[k v] its IH]; intros Hc; simpl.
  - left. split; [done|]. intros k v e Hkv. by apply elem_of_nil in Hkv.
  - destruct (erase_incoming_cases vertex (edges v)) as [[-> Hv]|[-> Hv]]; simpl.
    + rewrite vertex_eta, insert_id by (apply Hc; left).
      destruct IH as [[-> Hits]|[-> (k'&v'&e&Hin&He&Hto)]].
      * intros k' v' Hin. apply Hc. by right.
      * left. split; [done|].
        intros k' v' e [[= -> ->]|Hin]%elem_of_cons He.
        -- rewrite Forall_forall in Hv. by apply Hv.
        -- by eapply Hits.
      * right. split; [done|]. exists k', v', e. split; [by right|done].
    + right. split; [done|].
      apply Exists_exists in Hv as (e&He&Hto).
      exists k, v, e. split; [left|done].
Qed.

(** [removeVertex] on a vertex that no remaining vertex points to. *)
Lemma removeVertex_no_incoming (g : Graph) (vertex : Z) :
  is_Some (container g !! vertex) ->
  (∀ k v e, k ≠ vertex -> container g !! k = Some v -> e ∈ edges v ->
     toVertex e ≠ vertex) ->
  removeVertex g vertex = Returns {| container := delete vertex (container g) |}.
Proof.
  intros [v0 Hv0] Hno. unfold removeVertex. rewrite Hv0. simpl.
  destruct (removeVertex_loop_cases vertex
    (map_iter (delete vertex (container g))) (delete vertex (container g)))
    as [[-> _]|[_ (k&v&e&Hin&He&Hto)]].
  - intros k v. by rewrite elem_of_map_iter.
  - done.
  - apply elem_of_map_iter in Hin. apply lookup_delete_Some in Hin as [Hk Hin].
    exfalso. by eapply Hno.
Qed.

(** [removeVertex] on a vertex that some remaining vertex points to. *)
Lemma removeVertex_incoming (g : Graph) (vertex k : Z) (v : Vertex) (e : Edge) :
  is_Some (container g !! vertex) ->
  k ≠ vertex -> container g !! k = Some v -> e ∈ edges v -> toVertex e = vertex ->
  removeVertex g vertex = UndefinedBehaviour.
Proof.
  intros [v0 Hv0] Hk Hv He Hto. unfold removeVertex. rewrite Hv0. simpl.
  destruct (removeVertex_loop_cases vertex
    (map_iter (delete vertex (container g))) (delete vertex (container g)))
    as [[_ Hall]|[-> _]].
  - intros k' v'. by rewrite elem_of_map_iter.
  - exfalso. eapply (Hall k v e); [|done..].
    apply elem_of_map_iter. by rewrite lookup_delete_ne.
  - done.
Qed.

(** The outcome of [removeVertex] is one of three. *)
Lemma removeVertex_cases (g : Graph) (vertex : Z) :
  (container g !! vertex = None ∧
     removeVertex g vertex =
       Throws (DigraphException "When removeVertex, vertex not found!") g) ∨
  (is_Some (container g !! vertex) ∧
     removeVertex g vertex = Returns {| container := delete vertex (container g) |} ∧
     ∀ k v e, k ≠ vertex -> container g !! k = Some v -> e ∈ edges v ->
       toVertex e ≠ vertex) ∨
  (is_Some (container g !! vertex) ∧ removeVertex g vertex = UndefinedBehaviour).
Proof.
  destruct (container g !! vertex) as [v0|] eqn:Hv0.
  - right. unfold removeVertex. rewrite Hv0. simpl.
    destruct (removeVertex_loop_cases vertex
      (map_iter (delete vertex (container g))) (delete vertex (container g)))
      as [[-> Hall]|[-> _]].
    + intros k' v'. by rewrite elem_of_map_iter.
    + left. split; [done|]. split; [done|].
      intros k v e Hk Hv He. eapply (Hall k v e); [|done].
      apply elem_of_map_iter. by rewrite lookup_delete_ne.
    + right. done.
  - left. split; [done|]. unfold removeVertex. by rewrite Hv0.
Qed.

(** The first match of [find_edge] and of [erase_first]. *)
Lemma find_edge_first (to : Z) (l1 l2 : list Edge) (e : Edge) :
  Forall (fun e' => toVertex e' ≠ to) l1 -> toVertex e = to ->
  find_edge to (l1 ++ e :: l2) = Some e.
Proof.
  intros Hl1 He. induction Hl1 as [|e' l1 He' _ IH]; simpl.
  - by rewrite decide_True.
  - by rewrite decide_False.
Qed.

Lemma erase_first_first (to : Z) (l1 l2 : list Edge) (e : Edge) :
  Forall (fun e' => toVertex e' ≠ to) l1 -> toVertex e = to ->
  erase_first to (l1 ++ e :: l2) = Some (l1 ++ l2).
Proof.
  intros Hl1 He. induction Hl1 as [|e' l1 He' _ IH]; simpl.
  - by rewrite decide_True.
  - rewrite decide_False by done. by rewrite IH.
Qed.

Lemma erase_first_elem_of (to : Z) (l l' : list Edge) (e : Edge) :
  erase_first to l = Some l' -> e ∈ l' -> e ∈ l.
Proof.
  revert l'. induction l as [|a l IH]; intros l'; simpl; [done|].
  destruct (decide (toVertex a = to)).
  - intros [= ->] ?. by right.
  - destruct (erase_first to l) as [l''|]; simpl; [|done].
    intros [= <-] [->|?]%elem_of_cons; [left|right; eauto].
Qed.

End StructuralFacts.

(** ** Well-formedness is kept by every call that returns *)

Section WellFormed.

Context {VertexInfo EdgeInfo : Type}.
Abbreviation Graph := (Digraph VertexInfo EdgeInfo).

Lemma well_formed_new : well_formed (Digraph_new : Graph).
Proof. intros k v e Hk. simpl in Hk. by rewrite lookup_empty in Hk. Qed.

Lemma well_formed_addVertex (g g' : Graph) vertex vi :
  well_formed g -> addVertex g vertex vi = Returns g' -> well_formed g'.
Proof.
  intros Hwf. unfold addVertex.
  destruct (container g !! vertex) as [v0|] eqn:Hv0; intros [= <-]; [done|].
  intros k v e. simpl. rewrite lookup_insert.
  case_decide as Hk; [subst k|].
  - intros [= <-]. simpl. by intros ?%elem_of_nil.
  - intros Hv He. destruct (Hwf k v e Hv He) as [Hfrom Hto].
    split; [done|]. rewrite lookup_insert. by case_decide.
Qed.

Lemma well_formed_addEdge (g g' : Graph) from to ei :
  well_formed g -> addEdge g from to ei = Returns g' -> well_formed g'.
Proof.
  intros Hwf. unfold addEdge.
  destruct (container g !! from) as [vf|] eqn:Hvf; [|done].
  destruct (container g !! to) as [vt|] eqn:Hvt; intros [= <-].
  assert (Hmono : ∀ j, is_Some (container g !! j) ->
    is_Some (<[from := {| vinfo := vinfo vf;
                          edges := edges vf ++ [mkEdge from to ei] |}]>
               (container g) !! j)).
  { intros j. rewrite lookup_insert. by case_decide. }
  intros k v e. simpl. rewrite lookup_insert.
  case_decide as Hk; [subst k|].
  - intros [= <-]. simpl. intros [He|He]%elem_of_app.
    + destruct (Hwf from vf e Hvf He). split; [done|]. by apply Hmono.
    + apply list_elem_of_singleton in He as ->. simpl.
      split; [done|]. apply Hmono. by rewrite Hvt.
  - intros Hv He. destruct (Hwf k v e Hv He). split; [done|]. by apply Hmono.
Qed.

Lemma well_formed_removeVertex (g g' : Graph) vertex :
  well_formed g -> removeVertex g vertex = Returns g' -> well_formed g'.
Proof.
  intros Hwf Hrm.
  destruct (removeVertex_cases g vertex) as [[_ H]|[(_&H&Hno)|[_ H]]];
    rewrite H in Hrm; try done.
  injection Hrm as <-. intros k v e. simpl.
  intros [Hk Hv]%lookup_delete_Some He.
  destruct (Hwf k v e Hv He) as [Hfrom Hto]. split; [done|].
  rewrite lookup_delete_ne; [done|]. intros Heq. by eapply (Hno k v e).
Qed.

Lemma well_formed_removeEdge (g g' : Graph) from to :
  well_formed g -> removeEdge g from to = Returns g' -> well_formed g'.
Proof.
  intros Hwf. unfold removeEdge.
  destruct (container g !! from) as [vf|] eqn:Hvf; [|done].
  destruct (erase_first to (edges vf)) as [temp|] eqn:Htemp; intros [= <-].
  intros k v e. simpl. rewrite lookup_insert.
  assert (Hmono : ∀ j, is_Some (container g !! j) ->
    is_Some (<[from := {| vinfo := vinfo vf; edges := temp |}]> (container g) !! j)).
  { intros j. rewrite lookup_insert. by case_decide. }
  case_decide as Hk; [subst k|].
  - intros [= <-]. simpl. intros He.
    destruct (Hwf from vf e Hvf) as [? ?]; [by eapply erase_first_elem_of|].
    split; [done|]. by apply Hmono.
  - intros Hv He. destruct (Hwf k v e Hv He). split; [done|]. by apply Hmono.
Qed.

Lemma elem_of_Digraph_edges (g : Graph) (a b : Z) :
  (a, b) ∈ Digraph_edges g ↔
    ∃ k v e, container g !! k = Some v ∧ e ∈ edges v ∧ edge_pair e = (a, b).
Proof.
  unfold Digraph_edges. rewrite list_elem_of_In, in_flat_map. split.
  - intros ([k v]&Hkv&Hab). apply list_elem_of_In, elem_of_map_iter in Hkv.
    apply list_elem_of_In, list_elem_of_fmap in Hab as (e&Hab&He).
    by exists k, v, e.
  - intros (k&v&e&Hv&He&Hab). exists (k, v). split.
    + by apply list_elem_of_In, elem_of_map_iter.
    + apply list_elem_of_In, list_elem_of_fmap. by exists e.
Qed.

(** When [removeVertex(v)] returns, no remaining edge touches [v] and every
    other vertex record is as it was. *)
Lemma removeVertex_returns_spec (g g' : Graph) (vertex : Z) :
  well_formed g -> removeVertex g vertex = Returns g' ->
  container g' !! vertex = None ∧
  (∀ k, k ≠ vertex -> container g' !! k = container g !! k) ∧
  (∀ a b, (a, b) ∈ Digraph_edges g' -> a ≠ vertex ∧ b ≠ vertex).
Proof.
  intros Hwf Hrm.
  destruct (removeVertex_cases g vertex) as [[_ H]|[(_&H&Hno)|[_ H]]];
    rewrite H in Hrm; try done.
  injection Hrm as <-. simpl. split; [apply lookup_delete_eq|].
  split; [by intros k Hk; apply lookup_delete_ne|].
  intros a b (k&v&e&Hkv&He&[= <- <-])%elem_of_Digraph_edges.
  simpl in Hkv. apply lookup_delete_Some in Hkv as [Hk Hv].
  destruct (Hwf k v e Hv He) as [-> _]. split; [done|]. by apply (Hno k v e).
Qed.

(** Every graph a client can build is well formed. *)
Lemma constructible_well_formed (g : Graph) : constructible g -> well_formed g.
Proof.
  induction 1 as [|g m g' _ IH Hm]; [apply well_formed_new|].
  destruct m; simpl in Hm.
  - by eapply well_formed_addVertex.
  - by eapply well_formed_addEdge.
  - by eapply well_formed_removeVertex.
  - by eapply well_formed_removeEdge.
Qed.

End WellFormed.

(** ** Claims on the structural operations *)

Section StructuralClaims.

Context {VertexInfo EdgeInfo : Type}.
Abbreviation Graph := (Digraph VertexInfo EdgeInfo).
Abbreviation Vertex := (DigraphVertex VertexInfo EdgeInfo).
Abbreviation Edge := (DigraphEdge EdgeInfo).

(** C5 (as amended).  Move construction and move assignment give the
    destination the contents of the source and leave the source exactly as
    it was: the moved-from graph is valid, and it is empty only if it was
    empty before the move. *)
Theorem move_copies_and_keeps_source (this d : Graph) :
  container (Digraph_move d).1 = container d ∧
  (Digraph_move d).2 = d ∧
  container (Digraph_move_assign this d).1 = container d ∧
  (Digraph_move_assign this d).2 = d.
Proof. done. Qed.

(** C9.  A mutating call ([addVertex], [addEdge], [removeVertex],
    [removeEdge]) that fails, that is, throws, leaves the graph exactly as it
    was immediately before the call. *)
Theorem failed_mutation_keeps_graph (g g' : Graph)
    (m : mutation VertexInfo EdgeInfo) (e : exn) :
  apply_mutation g m = Throws e g' -> g' = g.
Proof.
  destruct m as [vertex vi|from to ei|vertex|from to]; simpl.
  - unfold addVertex. by destruct (container g !! vertex).
  - unfold addEdge.
    destruct (container g !! from); [|by intros [= _ <-]].
    destruct (container g !! to); [done|by intros [= _ <-]].
  - destruct (removeVertex_cases g vertex) as [[_ ->]|[(_&->&_)|[_ ->]]];
      [by intros [= _ <-]|done..].
  - unfold removeEdge.
    destruct (container g !! from) as [v|]; [|by intros [= _ <-]].
    destruct (erase_first to (edges v)); [done|by intros [= _ <-]].
Qed.

(** C10.  Let [e] be the first edge to [to] stored in the outgoing list of
    [from].  [addEdge] only ever appends, so [e] is the earliest added of the
    edges [from -> to] that the list holds.  Then [edgeInfo(from, to)] is the
    payload of [e]; [removeEdge(from, to)] removes [e] and nothing else, so
    later duplicates stay; and one more [addEdge(from, to, _)] returns and
    stores the new duplicate after [e]. *)
Theorem duplicate_edges_earliest_first (g : Graph) (from to : Z) (v : Vertex)
    (l1 l2 : list Edge) (e : Edge) :
  container g !! from = Some v ->
  edges v = l1 ++ e :: l2 ->
  Forall (fun e' => toVertex e' ≠ to) l1 ->
  toVertex e = to ->
  edgeInfo g from to = Ok (einfo e) ∧
  removeEdge g from to =
    Returns {| container :=
      <[from := {| vinfo := vinfo v; edges := l1 ++ l2 |}]> (container g) |} ∧
  ∀ ei, is_Some (container g !! to) ->
    addEdge g from to ei =
      Returns {| container :=
        <[from := {| vinfo := vinfo v;
                     edges := l1 ++ e :: l2 ++ [mkEdge from to ei] |}]>
          (container g) |}.
Proof.
  intros Hv Hl Hl1 He. split; [|split].
  - unfold edgeInfo. rewrite Hv, Hl. by erewrite find_edge_first.
  - unfold removeEdge. rewrite Hv, Hl. by erewrite erase_first_first.
  - intros ei [vt Hvt]. unfold addEdge. rewrite Hv, Hvt, Hl.
    by rewrite <-app_assoc.
Qed.

End StructuralClaims.

(** ** Depth-first traversal *)

Section Traversal.

Context {VertexInfo EdgeInfo : Type}.
Abbreviation Graph := (Digraph VertexInfo EdgeInfo).
Abbreviation Vertex := (DigraphVertex VertexInfo EdgeInfo).
Abbreviation Edge := (DigraphEdge EdgeInfo).

Lemma visit_at_present (k : Z) (b : bool) (vr : gmap Z bool) :
  vr !! k = Some b -> visit_at k vr = (b, vr).
Proof. intros H. unfold visit_at. by rewrite H. Qed.

Lemma unmarked_mono (g : Graph) (vr vr' : gmap Z bool) :
  (∀ u, marked vr u -> marked vr' u) -> unmarked g vr' ⊆ unmarked g vr.
Proof.
  intros Hm u. unfold unmarked. rewrite !elem_of_filter.
  intros [Hu ?]. split; [|done]. intros ?. by apply Hu, Hm.
Qed.

Lemma unmarked_insert_true (g : Graph) (vr : gmap Z bool) (k : Z) :
  is_Some (container g !! k) -> ¬ marked vr k ->
  (size (unmarked g (<[k := true]> vr)) < size (unmarked g vr))%nat.
Proof.
  intros Hk Hnm. apply subset_size. apply strict_spec_alt. split.
  - apply unmarked_mono. intros u. unfold marked. rewrite lookup_insert.
    by case_decide.
  - intros Heq. assert (Hin : k ∈ unmarked g vr).
    { unfold unmarked. apply elem_of_filter. split; [done|]. by apply elem_of_dom. }
    rewrite <-Heq in Hin. unfold unmarked in Hin.
    apply elem_of_filter in Hin as [Hin _]. apply Hin.
    unfold marked. by rewrite lookup_insert_eq.
Qed.

Lemma unmarked_size_le (g : Graph) (vr : gmap Z bool) :
  (size (unmarked g vr) ≤ size (container g))%nat.
Proof.
  rewrite <-(size_dom (container g)). apply subseteq_size.
  unfold unmarked. intros u. rewrite elem_of_filter. tauto.
Qed.

Lemma marked_dec (vr : gmap Z bool) (u : Z) : marked vr u ∨ ¬ marked vr u.
Proof. unfold marked. destruct (decide (vr !! u = Some true)); tauto. Qed.

Lemma DFTr_edges_spec (g : Graph) (n : nat) (k : Z)
    (self : Z -> Vertex -> gmap Z bool -> result (gmap Z bool)) :
  (∀ j v vr, container g !! j = Some v -> dom vr = dom (container g) ->
     ¬ marked vr j -> (size (unmarked g vr) ≤ n)%nat ->
     ∃ vr', self j v vr = Ok vr' ∧ marked vr' j ∧ traversed g j vr vr') ->
  ∀ (l : list Edge) (vr : gmap Z bool),
    (∀ e, e ∈ l -> is_Some (container g !! toVertex e) ∧ has_edge g k (toVertex e)) ->
    dom vr = dom (container g) ->
    (size (unmarked g vr) ≤ n)%nat ->
    ∃ vr', DFTr_edges self g l vr = Ok vr' ∧
           (∀ e, e ∈ l -> marked vr' (toVertex e)) ∧
           traversed g k vr vr'.
Proof.
  intros IHself l. induction l as [|e l IHl]; intros vr Hl Hdom Hsize; simpl.
  - exists vr. split; [done|]. split; [by intros e ?%elem_of_nil|].
    split; [done|]. split; [done|]. intros u ? ?. done.
  - destruct (Hl e) as [[w Hw] Hedge]; [left|].
    assert (Hsome : is_Some (vr !! toVertex e)).
    { apply elem_of_dom. rewrite Hdom. apply elem_of_dom. eauto. }
    destruct Hsome as [b Hb]. rewrite (visit_at_present _ _ _ Hb).
    assert (Hl' : ∀ e', e' ∈ l ->
      is_Some (container g !! toVertex e') ∧ has_edge g k (toVertex e')).
    { intros e' He'. apply Hl. by right. }
    destruct b.
    + destruct (IHl vr Hl' Hdom Hsize) as (vr'&->&Hmarks&Htr).
      exists vr'. split; [done|]. split; [|done].
      intros e' [->|He']%elem_of_cons; [|by apply Hmarks].
      destruct Htr as (_&Hmono&_). by apply Hmono.
    + rewrite Hw.
      destruct (IHself (toVertex e) w vr Hw Hdom) as (vr1&->&Hm1&Hd1&Hmono1&Hnew1).
      { unfold marked. by rewrite Hb. }
      { done. }
      simpl.
      destruct (IHl vr1 Hl' Hd1) as (vr'&->&Hmarks&Hd'&Hmono'&Hnew').
      { etrans; [|exact Hsize]. apply subseteq_size. by apply unmarked_mono. }
      exists vr'. split; [done|]. split.
      { intros e' [->|He']%elem_of_cons; [by apply Hmono'|by apply Hmarks]. }
      split; [done|]. split; [by intros u ?; apply Hmono', Hmono1|].
      intros u Hu' Hu. destruct (marked_dec vr1 u) as [Hu1|Hu1].
      * destruct (Hnew1 u Hu1 Hu) as [Hreach Hsucc]. split.
        -- eapply rtc_l; [exact Hedge|exact Hreach].
        -- intros w' Hw'. by apply Hmono', Hsucc.
      * by apply Hnew'.
Qed.

Lemma DFTr_spec (g : Graph) (fuel : nat) :
  well_formed g ->
  ∀ k v vr, container g !! k = Some v -> dom vr = dom (container g) ->
    ¬ marked vr k -> (size (unmarked g vr) ≤ fuel)%nat ->
    ∃ vr', DFTr fuel g k v vr = Ok vr' ∧ marked vr' k ∧ traversed g k vr vr'.
Proof.
  intros Hwf. induction fuel as [|fuel IH]; intros k v vr Hk Hdom Hnm Hsize.
  - exfalso. pose proof (unmarked_insert_true g vr k (mk_is_Some _ _ Hk) Hnm). lia.
  - simpl.
    assert (Hkdom : k ∈ dom (container g)) by (apply elem_of_dom; eauto).
    assert (Hdom0 : dom (<[k := true]> vr) = dom (container g)).
    { rewrite dom_insert_L, Hdom. apply subseteq_union_1_L. by apply singleton_subseteq_l. }
    assert (Hsize0 : (size (unmarked g (<[k := true]> vr)) ≤ fuel)%nat).
    { pose proof (unmarked_insert_true g vr k (mk_is_Some _ _ Hk) Hnm). lia. }
    assert (Hedges : ∀ e, e ∈ edges v ->
      is_Some (container g !! toVertex e) ∧ has_edge g k (toVertex e)).
    { intros e He. destruct (Hwf k v e Hk He) as [_ Hto]. split; [done|].
      by exists v, e. }
    destruct (DFTr_edges_spec g fuel k (DFTr fuel g) IH (edges v) (<[k := true]> vr))
      as (vr'&->&Hmarks&Hd'&Hmono&Hnew); [done..|].
    exists vr'. split; [done|].
    assert (Hk' : marked vr' k).
    { apply Hmono. unfold marked. by rewrite lookup_insert_eq. }
    split; [done|]. split; [done|]. split.
    { intros u Hu. apply Hmono. unfold marked in *. rewrite lookup_insert.
      by case_decide. }
    intros u Hu' Hu. destruct (decide (u = k)) as [->|Hne].
    + split; [done|]. intros w (v'&e&Hv'&He&Hto). subst w.
      rewrite Hk in Hv'. injection Hv' as <-. by apply Hmarks.
    + apply Hnew; [done|]. unfold marked in *. by rewrite lookup_insert_ne.
Qed.

(** A traversal from records that mark nothing marks exactly what can be
    reached. *)
Lemma DFTr_marks_reachable (g : Graph) (k : Z) (v : Vertex) (vr : gmap Z bool) :
  well_formed g -> container g !! k = Some v ->
  dom vr = dom (container g) -> (∀ u, ¬ marked vr u) ->
  ∃ vr', DFTr (size (container g)) g k v vr = Ok vr' ∧
         dom vr' = dom (container g) ∧
         ∀ u, marked vr' u ↔ reachable g k u.
Proof.
  intros Hwf Hk Hdom Hnone.
  destruct (DFTr_spec g (size (container g)) Hwf k v vr Hk Hdom (Hnone k))
    as (vr'&Hrun&Hk'&Hd'&_&Hnew); [apply unmarked_size_le|].
  exists vr'. split; [done|]. split; [done|]. intros u. split.
  - intros Hu. by apply Hnew.
  - revert u. unfold reachable.
    apply (rtc_ind_r (fun u => marked vr' u)); [done|].
    intros b c _ Hbc IH. by apply (Hnew b IH (Hnone b)).
Qed.

Lemma reset_visit_lookup (g : Graph) (vr : gmap Z bool) (k : Z) :
  reset_visit g vr !! k =
    if decide (is_Some (container g !! k)) then Some false else vr !! k.
Proof.
  unfold reset_visit.
  destruct (foldl_insert_keys (fun _ => false) (map_iter (container g)) vr k)
    as [Hin Hout].
  rewrite elem_of_map_iter_keys in Hin, Hout.
  case_decide; [by apply Hin|by apply Hout].
Qed.

Lemma reset_visit_dom (g : Graph) (vr : gmap Z bool) :
  dom vr ⊆ dom (container g) -> dom (reset_visit g vr) = dom (container g).
Proof.
  intros Hsub. apply set_eq. intros k. rewrite !elem_of_dom, reset_visit_lookup.
  case_decide as Hk; [by split; eauto|].
  split; [|done]. intros Hvr. apply elem_of_dom, Hsub, elem_of_dom in Hvr. done.
Qed.

Lemma reset_visit_unmarked (g : Graph) (vr : gmap Z bool) (u : Z) :
  dom vr ⊆ dom (container g) -> ¬ marked (reset_visit g vr) u.
Proof.
  intros Hsub. unfold marked. rewrite reset_visit_lookup.
  case_decide as Hk; [done|]. intros Hvr. apply Hk.
  apply elem_of_dom, Hsub, elem_of_dom. by rewrite Hvr.
Qed.

(** [countConnectVertices] counts the entries whose flag is [true]. *)
Lemma countConnectVertices_foldl (l : list (Z * bool)) (count : Z) :
  foldl (fun count kv => if kv.2 : bool then count + 1 else count) count l =
    count + Z.of_nat (length (filter (fun kv => kv.2 = true) l)).
Proof.
  revert count. induction l as [|[k b] l IH]; intros count; [simpl; lia|].
  cbn [foldl snd]. rewrite IH. destruct b.
  - rewrite filter_cons_True by done. cbn [length]. lia.
  - by rewrite filter_cons_False by done.
Qed.

Lemma length_filter_all {A : Type} (P : A -> Prop) `{!∀ x, Decision (P x)}
    (l : list A) :
  length (filter P l) = length l ↔ Forall P l.
Proof.
  induction l as [|x l IH]; [by split; [constructor|]|].
  pose proof (length_filter P l) as Hle.
  destruct (decide (P x)) as [Hx|Hx].
  - rewrite filter_cons_True by done. simpl. rewrite Forall_cons.
    split; [intros [=]; split; [done|by apply IH]|intros [_ ?]; f_equal; by apply IH].
  - rewrite filter_cons_False by done. simpl. rewrite Forall_cons.
    split; [lia|tauto].
Qed.

Lemma countConnectVertices_all (g : Graph) (vr : gmap Z bool) :
  dom vr = dom (container g) ->
  countConnectVertices vr = vertexCount g ↔
    ∀ u, is_Some (container g !! u) -> marked vr u.
Proof.
  intros Hdom. unfold countConnectVertices, vertexCount.
  rewrite countConnectVertices_foldl, Z.add_0_l, Nat2Z.inj_iff.
  rewrite <-(size_dom (container g)), <-Hdom, size_dom, <-length_map_iter.
  rewrite length_filter_all, Forall_forall. split.
  - intros Hall u Hu. apply elem_of_dom in Hu. rewrite <-Hdom in Hu.
    apply elem_of_dom in Hu as [b Hb]. unfold marked. rewrite Hb. f_equal.
    apply elem_of_map_iter in Hb. by apply (Hall _ Hb).
  - intros Hall [u b] Hin. apply elem_of_map_iter in Hin. simpl.
    assert (Hu : is_Some (container g !! u)).
    { apply elem_of_dom. rewrite <-Hdom. apply elem_of_dom. eauto. }
    specialize (Hall u Hu). unfold marked in Hall. congruence.
Qed.

Lemma isStronglyConnected_loop_spec (g : Graph) :
  well_formed g ->
  ∀ (its : list (Z * Vertex)) (vr : gmap Z bool),
    (∀ k v, (k, v) ∈ its -> container g !! k = Some v) ->
    dom vr ⊆ dom (container g) ->
    ∃ b, isStronglyConnected_loop g (vertexCount g) its vr = Ok b ∧
         (b = true ↔
            ∀ k v, (k, v) ∈ its ->
              ∀ u, is_Some (container g !! u) -> reachable g k u).
Proof.
  intros Hwf its. induction its as [|[k v] its IH]; intros vr Hits Hsub; simpl.
  - exists true. split; [done|]. split; [|done]. by intros _ k v ?%elem_of_nil.
  - destruct (DFTr_marks_reachable g k v (reset_visit g vr) Hwf)
      as (vr'&->&Hd'&Hmarks).
    { apply Hits. left. }
    { by apply reset_visit_dom. }
    { intros u. by apply reset_visit_unmarked. }
    simpl. pose proof (countConnectVertices_all g vr' Hd') as Hcount.
    destruct (decide (countConnectVertices vr' ≠ vertexCount g)) as [Hne|Heq].
    + exists false. split; [done|]. split; [done|]. intros Hall. exfalso.
      apply Hne, Hcount. intros u Hu. apply Hmarks. apply (Hall k v); [left|done].
    + apply dec_stable in Heq.
      destruct (IH vr') as (b&->&Hb).
      { intros k' v' ?. apply Hits. by right. }
      { by rewrite Hd'. }
      exists b. split; [done|]. rewrite Hb. split.
      * intros Hall k' v' [[= -> ->]|Hin]%elem_of_cons u Hu.
        -- apply Hmarks. by apply Hcount.
        -- by apply (Hall k' v').
      * intros Hall k' v' Hin. apply (Hall k' v'). by right.
Qed.

(** On a well-formed graph [isStronglyConnected()] returns, and it returns
    [true] exactly when the graph is strongly connected. *)
Lemma isStronglyConnected_spec (g : Graph) :
  well_formed g ->
  ∃ b, isStronglyConnected g = Ok b ∧ (b = true ↔ strongly_connected g).
Proof.
  intros Hwf. unfold isStronglyConnected.
  destruct (isStronglyConnected_loop_spec g Hwf (map_iter (container g)) ∅)
    as (b&->&Hb).
  { intros k v. by rewrite elem_of_map_iter. }
  { rewrite dom_empty_L. apply empty_subseteq. }
  exists b. split; [done|]. rewrite Hb. unfold strongly_connected. split.
  - intros Hall u w [v Hv] Hw. apply (Hall u v); [|done]. by apply elem_of_map_iter.
  - intros Hsc k v Hin u Hu. apply Hsc; [|done]. apply elem_of_map_iter in Hin. eauto.
Qed.

End Traversal.

(** ** The shortest-path loop *)

Lemma Qltb_lt (x y : Q) : Qltb x y = true ↔ (x < y)%Q.
Proof.
  unfold Qltb. rewrite Qlt_alt. destruct (x ?= y)%Q; split; congruence.
Qed.

(** Below a bound within [int], the conversion of a non-negative [double]
    is defined and stays between [0] and the bound. *)
Lemma double_to_int_bounded (x : Q) (m : Z) :
  (0 <= x)%Q -> (x < inject_Z m)%Q -> m <= INT_MAX ->
  ∃ t, double_to_int x = Ok t ∧ 0 <= t < m.
Proof.
  destruct x as [n dn]. unfold Qle, Qlt, double_to_int, INT_MIN, INT_MAX. simpl.
  intros Hpos Hlt Hm.
  assert (0 <= n) by lia.
  assert (0 <= n ÷ Z.pos dn) by (apply Z.quot_pos; lia).
  assert (n ÷ Z.pos dn < m).
  { apply Z.quot_lt_upper_bound; lia. }
  exists (n ÷ Z.pos dn). split; [|lia].
  rewrite decide_True; [done|lia].
Qed.

Section ShortestPathFacts.

Context {VertexInfo EdgeInfo : Type}.
Context {PQ : PriorityQueue} {PQS : PriorityQueueSpec PQ}.
Context {R : Rounding} {RS : RoundingSpec R}.
Abbreviation Graph := (Digraph VertexInfo EdgeInfo).
Abbreviation Vertex := (DigraphVertex VertexInfo EdgeInfo).
Abbreviation Edge := (DigraphEdge EdgeInfo).

Variable g : Graph.
Variable edgeWeightFunc : EdgeInfo -> Q.
Variable startVertex : Z.
Hypothesis g_well_formed : well_formed g.
Hypothesis weight_nonneg : ∀ ei, (0 <= edgeWeightFunc ei)%Q.
Hypothesis start_present : is_Some (container g !! startVertex).

Lemma vData_at_present (k : Z) (i : DijkstraInfo) (vData : gmap Z DijkstraInfo) :
  vData !! k = Some i -> vData_at k vData = (i, vData).
Proof. intros H. unfold vData_at. by rewrite H. Qed.

Lemma reachable_present (k : Z) :
  reachable g startVertex k -> is_Some (container g !! k).
Proof.
  unfold reachable. revert k.
  apply (rtc_ind_r (fun k => is_Some (container g !! k))); [done|].
  intros u k _ (v&e&Hv&He&<-) _. by destruct (g_well_formed u v e Hv He).
Qed.

Lemma inv_lookup (vData : gmap Z DijkstraInfo) (k : Z) :
  dom vData = dom (container g) -> is_Some (container g !! k) ->
  is_Some (vData !! k).
Proof. intros Hdom Hk. apply elem_of_dom. rewrite Hdom. by apply elem_of_dom. Qed.

Lemma dom_insert_present {A : Type} (m : gmap Z A) (k : Z) (x : A) :
  is_Some (m !! k) -> dom (<[k := x]> m) = dom m.
Proof.
  intros Hk. rewrite dom_insert_L. apply subseteq_union_1_L.
  by apply singleton_subseteq_l, elem_of_dom.
Qed.

(** One relaxation keeps the invariant and the flags, and pushes at most
    one element. *)
Lemma relax_spec (vIndex : Z) (v : Vertex) (e : Edge)
    (vData : gmap Z DijkstraInfo) (pq : pqueue) :
  dijkstra_inv g startVertex vData pq ->
  reachable g startVertex vIndex ->
  container g !! vIndex = Some v -> e ∈ edges v ->
  ∃ vData' pq',
    relax edgeWeightFunc vIndex (vData, pq) e = Ok (vData', pq') ∧
    dijkstra_inv g startVertex vData' pq' ∧
    (∀ k, finalized vData' k = finalized vData k) ∧
    (length (pq_items pq') ≤ S (length (pq_items pq)))%nat.
Proof.
  intros [Hdom Hrange Hstart Hqueue Hpred] Hreach Hv He.
  destruct (g_well_formed vIndex v e Hv He) as [_ Hto].
  destruct (inv_lookup vData (toVertex e) Hdom Hto) as [wD HwD].
  destruct (inv_lookup vData vIndex Hdom (mk_is_Some _ _ Hv)) as [vD HvD].
  unfold relax. rewrite (vData_at_present _ _ _ HwD), (vData_at_present _ _ _ HvD).
  destruct (Hrange _ _ HwD) as [HwD0 HwDmax].
  destruct (Hrange _ _ HvD) as [HvD0 HvDmax].
  assert (Hexact : (0 <= inject_Z (d vD) + edgeWeightFunc (einfo e))%Q).
  { rewrite <-(Qplus_0_l 0). apply Qplus_le_compat; [|apply weight_nonneg].
    change 0%Q with (inject_Z 0). by rewrite <-Zle_Qle. }
  destruct (fl _) as [sum|] eqn:Hfl; cycle 1.
  { destruct (Qltb _ 0) eqn:Hneg.
    - apply Qltb_lt in Hneg. by apply Qlt_not_le in Hneg.
    - eexists _, _. split; [done|]. split; [done|]. split; [done|]. lia. }
  pose proof (fl_nonneg _ _ Hexact Hfl) as Hsum.
  destruct (Qltb _ _) eqn:Hlt.
  - apply Qltb_lt in Hlt.
    destruct (double_to_int_bounded sum (d wD)) as (t&->&Ht); [done..|].
    simpl. eexists _, _. split; [done|].
    assert (Hreach' : reachable g startVertex (toVertex e)).
    { eapply rtc_r; [exact Hreach|]. by exists v, e. }
    assert (Hne : toVertex e ≠ startVertex).
    { intros Heq. destruct Hstart as (i&Hi&Hd&_). rewrite Heq, Hi in HwD.
      injection HwD as <-. lia. }
    split; [split|split].
    + by rewrite dom_insert_present.
    + intros k i. rewrite lookup_insert. case_decide; [|by apply Hrange].
      intros [= <-]. simpl. lia.
    + destruct Hstart as (i&Hi&?&?). exists i. by rewrite lookup_insert_ne.
    + intros x. rewrite pq_items_push. intros [->|Hx]%elem_of_cons; [done|].
      by apply Hqueue.
    + intros k i. rewrite lookup_insert. case_decide as Hk; [|by apply Hpred].
      intros [= <-]. subst k. by right.
    + intros k. unfold finalized. rewrite lookup_insert. case_decide as Hk; [|done].
      subst k. by rewrite HwD.
    + by rewrite pq_items_push.
  - eexists _, _. split; [done|]. split; [done|]. split; [done|]. lia.
Qed.

Lemma relax_all_spec (vIndex : Z) (v : Vertex) (l : list Edge) :
  reachable g startVertex vIndex ->
  container g !! vIndex = Some v -> (∀ e, e ∈ l -> e ∈ edges v) ->
  ∀ (vData : gmap Z DijkstraInfo) (pq : pqueue),
    dijkstra_inv g startVertex vData pq ->
    ∃ vData' pq',
      relax_all edgeWeightFunc vIndex l (vData, pq) = Ok (vData', pq') ∧
      dijkstra_inv g startVertex vData' pq' ∧
      (∀ k, finalized vData' k = finalized vData k) ∧
      (length (pq_items pq') ≤ length l + length (pq_items pq))%nat.
Proof.
  intros Hreach Hv. induction l as [|e l IH]; intros Hl vData pq Hinv.
  - exists vData, pq. simpl. split; [done|]. split; [done|]. split; [done|]. lia.
  - destruct (relax_spec vIndex v e vData pq Hinv Hreach Hv)
      as (vData1&pq1&Hrun1&Hinv1&Hflag1&Hlen1); [apply Hl; left|].
    destruct (IH (fun e' He' => Hl e' (list_elem_of_further _ _ _ He'))
                 vData1 pq1 Hinv1) as (vData2&pq2&Hrun2&Hinv2&Hflag2&Hlen2).
    exists vData2, pq2. cbn [relax_all]. rewrite Hrun1. simpl.
    split; [done|]. split; [done|]. split.
    + intros k. by rewrite Hflag2.
    + simpl. lia.
Qed.

Lemma pending_of_ext (fin fin' : Z -> bool) (l : list (Z * Vertex)) :
  (∀ k, k ∈ l.*1 -> fin' k = fin k) -> pending_of fin' l = pending_of fin l.
Proof.
  induction l as [|[j v] l IH]; intros Hext; [done|].
  unfold pending_of in *. cbn [sum_list_with fst snd].
  rewrite IH, (Hext j); [done|left|]. intros k ?. apply Hext. by right.
Qed.

Lemma pending_of_finalize (fin fin' : Z -> bool) (l : list (Z * Vertex))
    (k : Z) (v : Vertex) :
  NoDup l.*1 -> (k, v) ∈ l ->
  (∀ j, j ≠ k -> fin' j = fin j) -> fin k = false -> fin' k = true ->
  (pending_of fin' l + length (edges v) = pending_of fin l)%nat.
Proof.
  intros Hnd Hin Hother Hk Hk'. induction l as [|[j u] l IH]; [by apply elem_of_nil in Hin|].
  apply NoDup_cons in Hnd as [Hj Hnd]. unfold pending_of in *.
  cbn [sum_list_with fst snd]. apply elem_of_cons in Hin as [[= <- <-]|Hin].
  - rewrite Hk, Hk'. fold (pending_of fin' l). fold (pending_of fin l).
    rewrite (pending_of_ext fin fin' l); [lia|].
    intros i Hi. apply Hother. intros ->. done.
  - assert (j ≠ k).
    { intros ->. apply Hj. apply list_elem_of_fmap. by exists (k, v). }
    rewrite (Hother j) by done. specialize (IH Hnd Hin). lia.
Qed.

Lemma pending_finalize (vData : gmap Z DijkstraInfo) (k : Z) (v : Vertex)
    (i : DijkstraInfo) :
  container g !! k = Some v -> vData !! k = Some i -> kFlag i = false ->
  (pending g (<[k := {| kFlag := true; d := d i; p := p i |}]> vData)
     + length (edges v) = pending g vData)%nat.
Proof.
  intros Hv Hi Hflag. unfold pending.
  apply pending_of_finalize with (k := k).
  - apply NoDup_map_iter_keys.
  - by apply elem_of_map_iter.
  - intros j Hj. unfold finalized. by rewrite lookup_insert_ne.
  - unfold finalized. by rewrite Hi.
  - unfold finalized. by rewrite lookup_insert_eq.
Qed.

Lemma edgeCount_foldl (l : list (Z * Vertex)) (n : Z) :
  foldl (fun edgeNum kv => edgeNum + Z.of_nat (length (edges kv.2))) n l =
    n + Z.of_nat (sum_list_with (fun kv => length (edges kv.2)) l).
Proof.
  revert n. induction l as [|kv l IH]; intros n; simpl; [lia|].
  rewrite IH. lia.
Qed.

Lemma pending_le_edgeCount (vData : gmap Z DijkstraInfo) :
  (pending g vData ≤ Z.to_nat (edgeCount g))%nat.
Proof.
  unfold pending, edgeCount. rewrite edgeCount_foldl, Z.add_0_l, Nat2Z.id.
  unfold pending_of. induction (map_iter (container g)) as [|kv l IH]; simpl; [done|].
  destruct (finalized vData kv.1); lia.
Qed.

(** With a budget above the length of the queue plus what is left to push,
    the loop ends normally, and the invariant holds at the end. *)
Lemma dijkstra_loop_spec (fuel : nat) :
  ∀ (vData : gmap Z DijkstraInfo) (pq : pqueue),
    dijkstra_inv g startVertex vData pq ->
    (length (pq_items pq) + pending g vData < fuel)%nat ->
    ∃ vData' pq',
      dijkstra_loop fuel g edgeWeightFunc vData pq = Ok vData' ∧
      dijkstra_inv g startVertex vData' pq'.
Proof.
  induction fuel as [|fuel IH]; intros vData pq Hinv Hfuel; [lia|].
  cbn [dijkstra_loop]. case_decide as Hsize; [by exists vData, pq|].
  rewrite pq_size_items in Hsize.
  destruct (pq_top_nonempty pq) as [top Htop].
  { intros Hnil. by rewrite Hnil in Hsize. }
  rewrite Htop. destruct (pq_top_pop pq top Htop) as [Hperm _].
  assert (Hlen : length (pq_items pq) = S (length (pq_items (pq_pop pq)))).
  { by rewrite Hperm. }
  assert (Hreach : reachable g startVertex top.2).
  { apply (inv_queue _ _ _ _ Hinv). rewrite Hperm. left. }
  destruct (reachable_present _ Hreach) as [v Hv].
  destruct (inv_lookup vData top.2 (inv_dom _ _ _ _ Hinv) (mk_is_Some _ _ Hv)) as [vD HvD].
  rewrite (vData_at_present _ _ _ HvD).
  assert (Hinv_pop : dijkstra_inv g startVertex vData (pq_pop pq)).
  { destruct Hinv as [? ? ? Hqueue ?]. split; [done..| |done].
    intros x Hx. apply Hqueue. rewrite Hperm. by right. }
  destruct (kFlag vD) eqn:Hflag.
  - apply IH; [done|lia].
  - rewrite Hv.
    assert (Hinv1 : dijkstra_inv g startVertex
      (<[top.2 := {| kFlag := true; d := d vD; p := p vD |}]> vData) (pq_pop pq)).
    { destruct Hinv_pop as [Hdom Hrange Hstart Hqueue Hpred]. split.
      - rewrite dom_insert_present; [done|by rewrite HvD].
      - intros k i. rewrite lookup_insert. case_decide; [|by apply Hrange].
        intros [= <-]. simpl. by apply (Hrange _ _ HvD).
      - destruct Hstart as (i&Hi&Hd&Hp). rewrite lookup_insert.
        case_decide as Hk; [|by exists i].
        rewrite Hk, Hi in HvD. injection HvD as <-. by eexists.
      - done.
      - intros k i. rewrite lookup_insert. case_decide as Hk; [|by apply Hpred].
        intros [= <-]. simpl. subst k. by apply (Hpred _ _ HvD). }
    destruct (relax_all_spec top.2 v (edges v) Hreach Hv (fun e He => He) _ _ Hinv1)
      as (vData2&pq2&->&Hinv2&Hflag2&Hlen2).
    simpl. apply IH; [done|].
    assert (Hpending : pending g vData2 =
      pending g (<[top.2 := {| kFlag := true; d := d vD; p := p vD |}]> vData)).
    { apply pending_of_ext. intros k _. apply Hflag2. }
    rewrite Hpending.
    pose proof (pending_finalize vData top.2 v vD Hv HvD Hflag). lia.
Qed.

Lemma init_vData_lookup (k : Z) :
  init_vData g startVertex !! k =
    if decide (k = startVertex)
    then Some {| kFlag := false; d := 0; p := startVertex |}
    else (fun _ => {| kFlag := false; d := INT_MAX; p := k |}) <$> container g !! k.
Proof.
  unfold init_vData.
  set (base := foldl _ ∅ (map_iter (container g))).
  assert (Hbase : ∀ j, base !! j =
    (fun _ => {| kFlag := false; d := INT_MAX; p := j |}) <$> container g !! j).
  { intros j. subst base.
    destruct (foldl_insert_keys
      (fun j => {| kFlag := false; d := INT_MAX; p := j |})
      (map_iter (container g)) ∅ j) as [Hin Hout].
    rewrite elem_of_map_iter_keys in Hin, Hout.
    destruct (container g !! j) as [v|] eqn:Hj; simpl.
    - apply Hin. eauto.
    - rewrite Hout, lookup_empty; [done|]. by intros [? ?]. }
  destruct start_present as [v0 Hv0].
  rewrite (vData_at_present startVertex {| kFlag := false; d := INT_MAX; p := startVertex |})
    by (by rewrite Hbase, Hv0).
  cbn [kFlag p d].
  rewrite (vData_at_present startVertex {| kFlag := false; d := 0; p := startVertex |})
    by (by rewrite lookup_insert_eq).
  cbn [kFlag p d]. rewrite insert_insert_eq, lookup_insert.
  destruct (decide (k = startVertex)) as [->|Hne].
  - by rewrite decide_True.
  - rewrite decide_False by done. apply Hbase.
Qed.

Lemma init_inv :
  dijkstra_inv g startVertex (init_vData g startVertex) (pq_push (0, startVertex) pq_empty).
Proof.
  split.
  - apply set_eq. intros k. rewrite !elem_of_dom, init_vData_lookup.
    case_decide as Hk; [subst k; by split; eauto|].
    by rewrite fmap_is_Some.
  - intros k i. rewrite init_vData_lookup. unfold INT_MAX.
    case_decide; [intros [= <-]; simpl; lia|].
    destruct (container g !! k); intros [= <-]; simpl; lia.
  - eexists. rewrite init_vData_lookup, decide_True by done. done.
  - intros x. rewrite pq_items_push, pq_items_empty.
    intros ->%list_elem_of_singleton. simpl. done.
  - intros k i. rewrite init_vData_lookup.
    case_decide as Hk; [intros [= <-]; simpl; by left|].
    destruct (container g !! k); intros [= <-]; simpl; by left.
Qed.

(** C7.  On a well-formed graph, from a start vertex that exists and with a
    weight function that is never negative, [findShortestPaths] returns a map
    whose keys are exactly the vertex identifiers of the graph, in which the
    start vertex maps to itself and every vertex that cannot be reached from
    the start maps to itself.  This holds for every priority queue that meets
    the contract and for every rounding of the sums that does not round a
    non-negative sum below zero. *)
Theorem findShortestPaths_keys_start_unreached :
  ∃ ans,
    findShortestPaths g startVertex edgeWeightFunc = Ok ans ∧
    (∀ k, is_Some (ans !! k) ↔ k ∈ vertices g) ∧
    ans !! startVertex = Some startVertex ∧
    ∀ k, k ∈ vertices g -> ¬ reachable g startVertex k -> ans !! k = Some k.
Proof.
  destruct (dijkstra_loop_spec (dijkstra_fuel g) _ _ init_inv)
    as (vData&pq&Hrun&[Hdom _ (i&Hi&_&Hp) _ Hpred]).
  { rewrite pq_items_push, pq_items_empty. unfold dijkstra_fuel.
    pose proof (pending_le_edgeCount (init_vData g startVertex)). simpl. lia. }
  exists (p <$> vData). split; [|split; [|split]].
  - unfold findShortestPaths, findShortestPaths_vData.
    destruct start_present as [v0 ->]. by rewrite Hrun.
  - intros k. unfold vertices. rewrite elem_of_map_iter_keys, lookup_fmap, fmap_is_Some.
    by rewrite <-!elem_of_dom, Hdom.
  - by rewrite lookup_fmap, Hi, <-Hp.
  - intros k Hk Hunreached. unfold vertices in Hk.
    rewrite elem_of_map_iter_keys in Hk.
    destruct (inv_lookup vData k Hdom Hk) as [j Hj].
    rewrite lookup_fmap, Hj. simpl. f_equal.
    by destruct (Hpred k j Hj).
Qed.

End ShortestPathFacts.

(** ** Runs without ties

    When no two elements of the queue ever have the same key at a [top()],
    every queue that meets the contract pops the same elements in the same
    order, so the run does not depend on the queue. *)

Section TieFree.

Context {VertexInfo EdgeInfo : Type}.
Context {PQ : PriorityQueue} {PQS : PriorityQueueSpec PQ} {R : Rounding}.
Abbreviation Graph := (Digraph VertexInfo EdgeInfo).
Abbreviation Edge := (DigraphEdge EdgeInfo).

Lemma key_unique (l : list (Z * Z)) (x y : Z * Z) :
  NoDup l.*1 -> x ∈ l -> y ∈ l -> x.1 = y.1 -> x = y.
Proof.
  induction l as [|a l IH]; [by intros _ ?%elem_of_nil|].
  cbn [fmap list_fmap]. intros [Ha Hnd]%NoDup_cons Hx Hy Hkey.
  apply elem_of_cons in Hx as [->|Hx]; apply elem_of_cons in Hy as [->|Hy].
  - done.
  - exfalso. apply Ha. rewrite Hkey. by apply list_elem_of_fmap_2.
  - exfalso. apply Ha. rewrite <-Hkey. by apply list_elem_of_fmap_2.
  - by apply IH.
Qed.

Lemma pq_top_tie_free (pq : pqueue) (l : list (Z * Z)) (x : Z * Z) :
  pq_items pq ≡ₚ l -> NoDup l.*1 -> list_top l = Some x ->
  pq_top pq = Some x ∧ pq_items (pq_pop pq) ≡ₚ list_pop l.
Proof.
  intros Hperm Hnd Hx.
  destruct (list_top_pop l x Hx) as [Hl Hmax].
  destruct (pq_top_nonempty pq) as [y Hy].
  { intros Hnil. rewrite Hnil in Hperm. apply Permutation_nil_l in Hperm.
    subst l. discriminate. }
  destruct (pq_top_pop pq y Hy) as [Hq Hmax'].
  assert (Hyl : y ∈ l) by (rewrite <-Hperm, Hq; left).
  assert (Hxl : x ∈ l) by (by apply list_top_elem_of).
  assert (y = x) as ->.
  { apply (key_unique l); [done..|].
    specialize (Hmax y Hyl). specialize (Hmax' x). rewrite Hperm in Hmax'.
    specialize (Hmax' Hxl). unfold Compare in *. lia. }
  split; [done|]. apply (Permutation_cons_inv (a := x)).
  by rewrite <-Hq, Hperm.
Qed.

Lemma relax_tie_free (edgeWeightFunc : EdgeInfo -> Q) (vIndex : Z) (e : Edge)
    (vData vData' : gmap Z DijkstraInfo) (pq : pqueue) (l l' : list (Z * Z)) :
  pq_items pq ≡ₚ l ->
  relax (PQ := TieFreePQ) edgeWeightFunc vIndex (vData, l) e = Ok (vData', l') ->
  ∃ pq', relax edgeWeightFunc vIndex (vData, pq) e = Ok (vData', pq') ∧
         pq_items pq' ≡ₚ l'.
Proof.
  intros Hperm. unfold relax.
  destruct (vData_at (toVertex e) vData) as [wD vData1].
  destruct (vData_at vIndex vData1) as [vD vData2].
  destruct (fl _) as [sum|]; cycle 1.
  { destruct (Qltb _ _); [done|]. intros [= <- <-]. by exists pq. }
  destruct (Qltb _ _).
  - destruct (double_to_int _) as [wd| | |]; simpl; [|done..].
    intros [= <- <-]. eexists. split; [done|].
    rewrite pq_items_push, Hperm. symmetry. apply list_push_perm.
  - intros [= <- <-]. by exists pq.
Qed.

Lemma relax_all_tie_free (edgeWeightFunc : EdgeInfo -> Q) (vIndex : Z)
    (edges_list : list Edge) :
  ∀ (vData vData' : gmap Z DijkstraInfo) (pq : pqueue) (l l' : list (Z * Z)),
    pq_items pq ≡ₚ l ->
    relax_all (PQ := TieFreePQ) edgeWeightFunc vIndex edges_list (vData, l)
      = Ok (vData', l') ->
    ∃ pq', relax_all edgeWeightFunc vIndex edges_list (vData, pq) = Ok (vData', pq') ∧
           pq_items pq' ≡ₚ l'.
Proof.
  induction edges_list as [|e edges_list IH]; intros vData vData' pq l l' Hperm.
  - simpl. intros [= <- <-]. by exists pq.
  - cbn [relax_all].
    destruct (relax (PQ := TieFreePQ) edgeWeightFunc vIndex (vData, l) e)
      as [[vData1 l1]| | |] eqn:Hrelax; [|done..].
    destruct (relax_tie_free _ _ _ _ _ _ _ _ Hperm Hrelax) as (pq1&->&Hperm1).
    cbn [mbind result_bind]. by apply IH.
Qed.

Lemma dijkstra_loop_tie_free (g : Graph) (edgeWeightFunc : EdgeInfo -> Q)
    (fuel : nat) :
  ∀ (vData r : gmap Z DijkstraInfo) (pq : pqueue) (l : list (Z * Z)),
    pq_items pq ≡ₚ l ->
    dijkstra_loop (PQ := TieFreePQ) fuel g edgeWeightFunc vData l = Ok r ->
    dijkstra_loop fuel g edgeWeightFunc vData pq = Ok r.
Proof.
  induction fuel as [|fuel IH]; intros vData r pq l Hperm; [done|].
  assert (Hlen : length (pq_items pq) = length l) by (by rewrite Hperm).
  cbn [dijkstra_loop]. rewrite (pq_size_items pq), Hlen.
  change (@pq_size TieFreePQ l) with (length l).
  destruct (decide (length l = 0%nat)); [done|].
  change (@pq_top TieFreePQ l)
    with (if bool_decide (NoDup l.*1) then list_top l else None).
  destruct (bool_decide (NoDup l.*1)) eqn:Hnd; [|done].
  apply bool_decide_eq_true in Hnd.
  destruct (list_top l) as [top|] eqn:Htop; [|done].
  destruct (pq_top_tie_free pq l top Hperm Hnd Htop) as [-> Hpop].
  change (@pq_pop TieFreePQ l) with (list_pop l).
  destruct (vData_at top.2 vData) as [vD vData1].
  destruct (kFlag vD); [by apply IH|].
  destruct (container g !! top.2) as [v|]; [|done].
  destruct (relax_all (PQ := TieFreePQ) _ _ _ _) as [[vData2 l2]| | |] eqn:Hrelax;
    [|done..].
  destruct (relax_all_tie_free _ _ _ _ _ _ _ _ Hpop Hrelax) as (pq2&->&Hperm2).
  cbn [mbind result_bind]. by apply IH.
Qed.

Lemma findShortestPaths_vData_tie_free (g : Graph) (startVertex : Z)
    (edgeWeightFunc : EdgeInfo -> Q) (r : gmap Z DijkstraInfo) :
  findShortestPaths_vData (PQ := TieFreePQ) g startVertex edgeWeightFunc = Ok r ->
  findShortestPaths_vData g startVertex edgeWeightFunc = Ok r.
Proof.
  unfold findShortestPaths_vData. destruct (container g !! startVertex); [|done].
  apply dijkstra_loop_tie_free.
  rewrite pq_items_push, pq_items_empty. done.
Qed.

Lemma findShortestPaths_tie_free (g : Graph) (startVertex : Z)
    (edgeWeightFunc : EdgeInfo -> Q) (ans : gmap Z Z) :
  findShortestPaths (PQ := TieFreePQ) g startVertex edgeWeightFunc = Ok ans ->
  findShortestPaths g startVertex edgeWeightFunc = Ok ans.
Proof.
  unfold findShortestPaths.
  destruct (findShortestPaths_vData (PQ := TieFreePQ) _ _ _) as [r| | |] eqn:Hr;
    [|done..].
  by rewrite (findShortestPaths_vData_tie_free _ _ _ _ Hr).
Qed.

End TieFree.

(** ** Runs on listed sums

    A run that ends normally with the rounding [TableRounding table] is the
    run with every rounding that rounds the listed sums as the table says. *)

Lemma Qltb_Qeq (x y z : Q) : (x == y)%Q -> Qltb x z = Qltb y z.
Proof. intros Heq. unfold Qltb. by rewrite Heq. Qed.

Lemma quot_Qeq (n1 n2 : Z) (d1 d2 : positive) :
  n1 * Z.pos d2 = n2 * Z.pos d1 -> n1 ÷ Z.pos d1 = n2 ÷ Z.pos d2.
Proof.
  intros Heq.
  assert (Hpos : ∀ a b c e, 0 <= a -> a * Z.pos e = b * Z.pos c ->
                            a ÷ Z.pos c = b ÷ Z.pos e).
  { intros a b c e Ha Hab. assert (0 <= b) by nia.
    rewrite !Z.quot_div_nonneg by lia.
    apply (Qfloor_comp (a # c) (b # e)). unfold Qeq. simpl. lia. }
  destruct (Z.le_gt_cases 0 n1) as [Hn|Hn]; [by apply Hpos|].
  apply Z.opp_inj. rewrite <-!Z.quot_opp_l by lia. apply Hpos; lia.
Qed.

Lemma double_to_int_Qeq (x y : Q) :
  (x == y)%Q -> double_to_int x = double_to_int y.
Proof.
  intros Heq. unfold double_to_int.
  by rewrite (quot_Qeq (Qnum x) (Qnum y) (Qden x) (Qden y)).
Qed.

Lemma double_to_int_above_min (x : Q) (t : Z) :
  double_to_int x = Ok t -> INT_MIN <= t.
Proof. unfold double_to_int. case_decide; [|done]. intros [= <-]. lia. Qed.

Lemma ExactRounding_spec : RoundingSpec ExactRounding.
Proof. split. intros x y Hx [= <-]. done. Qed.

Lemma ExactRounding_exact (x : Q) : fl_exact (R := ExactRounding) x.
Proof. by exists x. Qed.

Lemma exact_table_rounds {R : Rounding} (sums : list Q) :
  Forall fl_exact sums ->
  ∀ x y, table_lookup x (exact_table sums) = Some y -> fl_rounds x y.
Proof.
  induction 1 as [|x' sums Hx' _ IH]; intros x y; [done|].
  cbn [exact_table fmap list_fmap table_lookup]. case_decide as Hx; [|apply IH].
  intros [= <-]. by subst x'.
Qed.

Section TableRuns.

Context {VertexInfo EdgeInfo : Type}.
Context {PQ : PriorityQueue} {R : Rounding}.
Abbreviation Graph := (Digraph VertexInfo EdgeInfo).
Abbreviation Edge := (DigraphEdge EdgeInfo).

Variable table : list (Q * Q).
Hypothesis table_rounds : ∀ x y, table_lookup x table = Some y -> fl_rounds x y.

Lemma vData_at_above_min (k : Z) (vData : gmap Z DijkstraInfo) :
  above_int_min vData ->
  INT_MIN <= d (vData_at k vData).1 ∧ above_int_min (vData_at k vData).2.
Proof.
  intros Hmin. unfold vData_at. destruct (vData !! k) as [i|] eqn:Hk; simpl.
  - split; [by apply (Hmin k)|done].
  - split; [done|]. intros j i. rewrite lookup_insert. case_decide; [|by apply Hmin].
    by intros [= <-].
Qed.

Lemma relax_table (edgeWeightFunc : EdgeInfo -> Q) (vIndex : Z) (e : Edge)
    (vData vData' : gmap Z DijkstraInfo) (pq pq' : pqueue) :
  above_int_min vData ->
  relax (R := TableRounding table) edgeWeightFunc vIndex (vData, pq) e
    = Ok (vData', pq') ->
  relax edgeWeightFunc vIndex (vData, pq) e = Ok (vData', pq') ∧
  above_int_min vData'.
Proof.
  intros Hmin. unfold relax.
  destruct (vData_at_above_min (toVertex e) vData Hmin) as [HwD Hmin1].
  destruct (vData_at (toVertex e) vData) as [wD vData1]. simpl in HwD, Hmin1.
  destruct (vData_at_above_min vIndex vData1 Hmin1) as [_ Hmin2].
  destruct (vData_at vIndex vData1) as [vD vData2]. simpl in Hmin2.
  set (x := (inject_Z (d vD) + edgeWeightFunc (einfo e))%Q).
  change (fl (Rounding := TableRounding table) x)
    with (match table_lookup x table with
          | Some y => Some y
          | None => Some (inject_Z (INT_MIN - 1))
          end).
  destruct (table_lookup x table) as [y|] eqn:Hx.
  - destruct (table_rounds x y Hx) as (y'&->&Hy).
    rewrite (Qltb_Qeq y' y) by done. rewrite (double_to_int_Qeq y' y) by done.
    destruct (Qltb y _); [|by intros [= <- <-]].
    destruct (double_to_int y) as [wd| | |] eqn:Hwd; [|done..].
    cbn [mbind result_bind]. intros [= <- <-]. split; [done|].
    intros k i. rewrite lookup_insert. case_decide; [|by apply Hmin2].
    intros [= <-]. simpl. by apply (double_to_int_above_min y).
  - assert (Qltb (inject_Z (INT_MIN - 1)) (inject_Z (d wD)) = true) as ->.
    { apply Qltb_lt. rewrite <-Zlt_Qlt. lia. }
    done.
Qed.

Lemma relax_all_table (edgeWeightFunc : EdgeInfo -> Q) (vIndex : Z)
    (edges_list : list Edge) :
  ∀ (vData vData' : gmap Z DijkstraInfo) (pq pq' : pqueue),
    above_int_min vData ->
    relax_all (R := TableRounding table) edgeWeightFunc vIndex edges_list (vData, pq)
      = Ok (vData', pq') ->
    relax_all edgeWeightFunc vIndex edges_list (vData, pq) = Ok (vData', pq') ∧
    above_int_min vData'.
Proof.
  induction edges_list as [|e edges_list IH]; intros vData vData' pq pq' Hmin.
  - simpl. by intros [= <- <-].
  - cbn [relax_all].
    destruct (relax (R := TableRounding table) edgeWeightFunc vIndex (vData, pq) e)
      as [[vData1 pq1]| | |] eqn:Hrelax; [|done..].
    destruct (relax_table _ _ _ _ _ _ _ Hmin Hrelax) as [-> Hmin1].
    cbn [mbind result_bind]. by apply IH.
Qed.

Lemma dijkstra_loop_table (g : Graph) (edgeWeightFunc : EdgeInfo -> Q)
    (fuel : nat) :
  ∀ (vData r : gmap Z DijkstraInfo) (pq : pqueue),
    above_int_min vData ->
    dijkstra_loop (R := TableRounding table) fuel g edgeWeightFunc vData pq = Ok r ->
    dijkstra_loop fuel g edgeWeightFunc vData pq = Ok r.
Proof.
  induction fuel as [|fuel IH]; intros vData r pq Hmin; [done|].
  cbn [dijkstra_loop]. case_decide; [done|].
  destruct (pq_top pq) as [top|]; [|done].
  destruct (vData_at_above_min top.2 vData Hmin) as [HvD Hmin1].
  destruct (vData_at top.2 vData) as [vD vData1]. simpl in HvD, Hmin1.
  destruct (kFlag vD); [by apply IH|].
  destruct (container g !! top.2) as [v|]; [|done].
  destruct (relax_all (R := TableRounding table) _ _ _ _)
    as [[vData2 pq2]| | |] eqn:Hrelax; [|done..].
  apply relax_all_table in Hrelax as [-> Hmin2].
  - cbn [mbind result_bind]. by apply IH.
  - intros k i. rewrite lookup_insert. case_decide; [|by apply Hmin1].
    by intros [= <-].
Qed.

Lemma init_vData_above_min (g : Graph) (startVertex : Z) :
  is_Some (container g !! startVertex) ->
  above_int_min (init_vData g startVertex).
Proof.
  intros Hstart k i. rewrite (init_vData_lookup g startVertex Hstart).
  unfold INT_MIN, INT_MAX.
  case_decide; [by intros [= <-]|].
  destruct (container g !! k); by intros [= <-].
Qed.

Lemma findShortestPaths_vData_table (g : Graph) (startVertex : Z)
    (edgeWeightFunc : EdgeInfo -> Q) (r : gmap Z DijkstraInfo) :
  findShortestPaths_vData (R := TableRounding table) g startVertex edgeWeightFunc
    = Ok r ->
  findShortestPaths_vData g startVertex edgeWeightFunc = Ok r.
Proof.
  unfold findShortestPaths_vData.
  destruct (container g !! startVertex) eqn:Hstart; [|done].
  apply dijkstra_loop_table, init_vData_above_min. by rewrite Hstart.
Qed.

(** The reference run: no tie in the queue, and listed sums only. *)
Lemma findShortestPaths_vData_reference {PQS : PriorityQueueSpec PQ}
    (g : Graph) (startVertex : Z)
    (edgeWeightFunc : EdgeInfo -> Q) (r : gmap Z DijkstraInfo) :
  findShortestPaths_vData (PQ := TieFreePQ) (R := TableRounding table)
    g startVertex edgeWeightFunc = Ok r ->
  findShortestPaths_vData g startVertex edgeWeightFunc = Ok r.
Proof.
  intros Hrun. by apply findShortestPaths_vData_table, findShortestPaths_vData_tie_free.
Qed.

Lemma findShortestPaths_reference {PQS : PriorityQueueSpec PQ}
    (g : Graph) (startVertex : Z)
    (edgeWeightFunc : EdgeInfo -> Q) (ans : gmap Z Z) :
  findShortestPaths (PQ := TieFreePQ) (R := TableRounding table)
    g startVertex edgeWeightFunc = Ok ans ->
  findShortestPaths g startVertex edgeWeightFunc = Ok ans.
Proof.
  unfold findShortestPaths.
  destruct (findShortestPaths_vData (PQ := TieFreePQ) _ _ _) as [r| | |] eqn:Hr;
    [|done..].
  by rewrite (findShortestPaths_vData_reference _ _ _ _ Hr).
Qed.

End TableRuns.

(** ** The concrete graphs *)

Lemma apply_mutations_constructible {VertexInfo EdgeInfo : Type}
    (ms : list (mutation VertexInfo EdgeInfo)) (g g' : Digraph VertexInfo EdgeInfo) :
  constructible g -> apply_mutations g ms = Returns g' -> constructible g'.
Proof.
  revert g. induction ms as [|m ms IH]; intros g Hg; simpl.
  - by intros [= <-].
  - destruct (apply_mutation g m) as [g1| |] eqn:Hm; [|done..].
    apply IH. by eapply constructible_step.
Qed.

Lemma build_well_formed {VertexInfo EdgeInfo : Type}
    (ms : list (mutation VertexInfo EdgeInfo)) (g : Digraph VertexInfo EdgeInfo) :
  apply_mutations Digraph_new ms = Returns g -> well_formed g.
Proof.
  intros Hms. apply constructible_well_formed.
  eapply apply_mutations_constructible; [apply constructible_new|exact Hms].
Qed.

Lemma build_single_returns :
  apply_mutations Digraph_new build_single = Returns graph_single.
Proof. by vm_compute. Qed.

Lemma build_no_edge_returns :
  apply_mutations Digraph_new build_no_edge = Returns graph_no_edge.
Proof. by vm_compute. Qed.

Lemma build_one_edge_returns :
  apply_mutations Digraph_new build_one_edge = Returns graph_one_edge.
Proof. by vm_compute. Qed.

Lemma build_cycle_returns :
  apply_mutations Digraph_new build_cycle = Returns graph_cycle.
Proof. by vm_compute. Qed.

Lemma build_detour_returns :
  apply_mutations Digraph_new build_detour = Returns graph_detour.
Proof. by vm_compute. Qed.

Lemma build_fractional_returns :
  apply_mutations Digraph_new build_fractional = Returns graph_fractional.
Proof. by vm_compute. Qed.

Lemma weight_of_nonneg (ei : Q) : (0 <= weight_of ei)%Q.
Proof. apply Qabs_nonneg. Qed.

(** C2 on the code.  The graph with the edge [1 -> 2] is built by the public
    calls; a second [addEdge(1, 2, _)] returns normally instead of failing,
    and the graph then holds two edges with the pair [(1, 2)]. *)
Theorem addEdge_duplicate_returns :
  apply_mutations Digraph_new build_one_edge = Returns graph_one_edge ∧
  Digraph_edges graph_one_edge = [(1, 2)] ∧
  addEdge graph_one_edge 1 2 20%Q = Returns graph_two_edges ∧
  graph_two_edges ≠ graph_one_edge ∧
  Digraph_edges graph_two_edges = [(1, 2); (1, 2)] ∧
  edgeCount graph_two_edges = 2.
Proof.
  split; [apply build_one_edge_returns|].
  split; [by vm_compute|]. split; [by vm_compute|].
  split; [|split; by vm_compute].
  intros H. apply (f_equal edgeCount) in H. vm_compute in H. discriminate.
Qed.

(** C3 on the code.  With vertices [1], [2] and the edge [1 -> 2],
    [removeVertex(2)] erases the edge while the iterator over the list of
    [1] is live and then increments the erased iterator: the call has no
    defined result.  The same holds when the list of [1] stores two edges
    to [2] one after the other. *)
Theorem removeVertex_incoming_edge_undefined :
  apply_mutations Digraph_new build_one_edge = Returns graph_one_edge ∧
  removeVertex graph_one_edge 2 = UndefinedBehaviour ∧
  apply_mutations Digraph_new (build_one_edge ++ [AddEdge 1 2 20%Q])
    = Returns graph_two_edges ∧
  removeVertex graph_two_edges 2 = UndefinedBehaviour.
Proof.
  split; [apply build_one_edge_returns|].
  split; [by vm_compute|]. split; by vm_compute.
Qed.

(** C4 on the code.  [addVertex] on an identifier that is present returns
    normally instead of failing; the graph, and so the payload stored at
    the identifier, stays as it was. *)
Theorem addVertex_existing_returns :
  apply_mutations Digraph_new build_single = Returns graph_single ∧
  addVertex graph_single 1 "b"%string = Returns graph_single ∧
  vertexInfo graph_single 1 = Ok "a"%string.
Proof. split; [apply build_single_returns|]. split; by vm_compute. Qed.

(** C5, as stated, fails: after a move from a graph with one vertex, by
    construction or by assignment, the moved-from graph still has that
    vertex. *)
Lemma moved_from_graph_not_empty :
  ¬ (container (Digraph_move graph_single).1 = container graph_single ∧
     vertices (Digraph_move graph_single).2 = [] ∧
     Digraph_edges (Digraph_move graph_single).2 = []) ∧
  ¬ (container (Digraph_move_assign Digraph_new graph_single).1
       = container graph_single ∧
     vertices (Digraph_move_assign Digraph_new graph_single).2 = [] ∧
     Digraph_edges (Digraph_move_assign Digraph_new graph_single).2 = []).
Proof. split; intros (_&Hv&_); vm_compute in Hv; discriminate. Qed.

(** A failing call: [removeEdge(2, 1)] on the graph with the only edge
    [1 -> 2]. *)
Lemma failed_mutation_keeps_graph_witness :
  apply_mutation graph_one_edge (RemoveEdge 2 1) =
    Throws (DigraphException "When removeEdge, toVertex not found!") graph_one_edge ∧
  graph_one_edge = graph_one_edge.
Proof.
  assert (H : apply_mutation graph_one_edge (RemoveEdge 2 1) =
    Throws (DigraphException "When removeEdge, toVertex not found!") graph_one_edge)
    by (vm_compute; reflexivity).
  split; [exact H|].
  exact (failed_mutation_keeps_graph graph_one_edge graph_one_edge _ _ H).
Defined.

(** Two edges [1 -> 2] with payloads 10 and 20, added in this order. *)
Lemma duplicate_edges_earliest_first_witness :
  container graph_two_edges !! 1 =
    Some {| vinfo := "a"%string; edges := [mkEdge 1 2 10%Q; mkEdge 1 2 20%Q] |} ∧
  edgeInfo graph_two_edges 1 2 = Ok 10%Q ∧
  removeEdge graph_two_edges 1 2 =
    Returns {| container :=
      <[1 := {| vinfo := "a"%string; edges := [] ++ [mkEdge 1 2 20%Q] |}]>
        (container graph_two_edges) |}.
Proof.
  assert (H : container graph_two_edges !! 1 =
    Some {| vinfo := "a"%string; edges := [mkEdge 1 2 10%Q; mkEdge 1 2 20%Q] |})
    by (vm_compute; reflexivity).
  split; [exact H|].
  destruct (duplicate_edges_earliest_first graph_two_edges 1 2 _ []
    [mkEdge 1 2 20%Q] (mkEdge 1 2 10%Q) H eq_refl (Forall_nil_2 _) eq_refl)
    as (Hinfo&Hremove&_).
  split; [exact Hinfo|exact Hremove].
Defined.

(** C8.  On every well-formed graph (every graph that the public calls can
    build is one) [isStronglyConnected()] returns, and it returns [true] if
    and only if every vertex can reach every other vertex along directed
    edges.  In particular it returns [true] on the empty graph and on every
    graph with a single vertex, [false] on the vertices [1], [2] with the
    single edge [1 -> 2], and [true] on the cycle [1 -> 2 -> 3 -> 1]. *)
Theorem isStronglyConnected_correct :
  (∀ (VertexInfo EdgeInfo : Type) (g : Digraph VertexInfo EdgeInfo),
     well_formed g ->
     ∃ b, isStronglyConnected g = Ok b ∧ (b = true ↔ strongly_connected g)) ∧
  (∀ VertexInfo EdgeInfo : Type,
     isStronglyConnected (Digraph_new : Digraph VertexInfo EdgeInfo) = Ok true) ∧
  (∀ (VertexInfo EdgeInfo : Type) (g : Digraph VertexInfo EdgeInfo) k v,
     well_formed g -> container g = {[ k := v ]} ->
     isStronglyConnected g = Ok true) ∧
  isStronglyConnected graph_one_edge = Ok false ∧
  isStronglyConnected graph_cycle = Ok true.
Proof.
  split; [intros; by apply isStronglyConnected_spec|].
  split; [intros; by vm_compute|].
  split; [|split; by vm_compute].
  intros VertexInfo EdgeInfo g k v Hwf Hg.
  destruct (isStronglyConnected_spec g Hwf) as (b&->&Hb). f_equal. apply Hb.
  intros u w [vu Hu] [vw Hw]. rewrite Hg in Hu, Hw.
  apply lookup_singleton_Some in Hu as [<- _].
  apply lookup_singleton_Some in Hw as [<- _]. done.
Qed.

Lemma isStronglyConnected_correct_witness :
  well_formed graph_cycle ∧
  ∃ b, isStronglyConnected graph_cycle = Ok b ∧
       (b = true ↔ strongly_connected graph_cycle).
Proof.
  split; [exact (build_well_formed _ _ build_cycle_returns)|].
  exact (proj1 isStronglyConnected_correct _ _ graph_cycle
           (build_well_formed _ _ build_cycle_returns)).
Defined.

(** The graph with vertices [1], [2] and no edge, from the start [1]. *)
Lemma findShortestPaths_keys_start_unreached_witness :
  well_formed graph_no_edge ∧
  (∀ ei, (0 <= weight_of ei)%Q) ∧
  is_Some (container graph_no_edge !! 1) ∧
  ∃ ans,
    findShortestPaths (PQ := ListPQ) (R := ExactRounding)
      graph_no_edge 1 weight_of = Ok ans ∧
    (∀ k, is_Some (ans !! k) ↔ k ∈ vertices graph_no_edge) ∧
    ans !! 1 = Some 1 ∧
    ∀ k, k ∈ vertices graph_no_edge -> ¬ reachable graph_no_edge 1 k ->
      ans !! k = Some k.
Proof.
  assert (Hstart : is_Some (container graph_no_edge !! 1))
    by (vm_compute; eauto).
  split; [exact (build_well_formed _ _ build_no_edge_returns)|].
  split; [exact weight_of_nonneg|]. split; [exact Hstart|].
  exact (findShortestPaths_keys_start_unreached (RS := ExactRounding_spec)
           graph_no_edge weight_of 1
           (build_well_formed _ _ build_no_edge_returns) weight_of_nonneg Hstart).
Defined.

(** C1 on the code.  [Compare] orders the queue by [lhs.first < rhs.first],
    so [top()] is an element of greatest tentative distance.  On the graph
    [graph_detour] from the start [1], whatever queue meets the contract and
    whatever rounding returns the sums 1, 2, 5 and 6 of the run unchanged,
    vertex [4] is finalised first and vertex [3] is finalised at distance 5,
    before its distance drops to 2; [4] keeps the predecessor [1], although
    the path [1, 2, 3, 4] is lighter than the edge [1 -> 4]. *)
Theorem findShortestPaths_detour_not_shortest :
  apply_mutations Digraph_new build_detour = Returns graph_detour ∧
  (∀ (PQ : PriorityQueue) (PQS : PriorityQueueSpec PQ) (R : Rounding),
     Forall (fl_exact (R := R)) [1; 2; 5; 6]%Q ->
     findShortestPaths (PQ := PQ) (R := R) graph_detour 1 weight_of =
       Ok {[ 1 := 1; 2 := 1; 3 := 2; 4 := 1 ]}) ∧
  ∃ direct detour,
    path_weight graph_detour weight_of [1; 4] = Some direct ∧
    path_weight graph_detour weight_of [1; 2; 3; 4] = Some detour ∧
    (detour < direct)%Q.
Proof.
  split; [apply build_detour_returns|]. split.
  - intros PQ PQS R Hexact.
    apply (findShortestPaths_reference _ (exact_table_rounds _ Hexact)).
    by vm_compute.
  - eexists _, _. split; [by vm_compute|]. split; [by vm_compute|]. done.
Qed.

Lemma findShortestPaths_detour_not_shortest_witness :
  Forall (fl_exact (R := ExactRounding)) [1; 2; 5; 6]%Q ∧
  findShortestPaths (PQ := ListPQ) (R := ExactRounding) graph_detour 1 weight_of =
    Ok {[ 1 := 1; 2 := 1; 3 := 2; 4 := 1 ]}.
Proof.
  assert (Hexact : Forall (fl_exact (R := ExactRounding)) [1; 2; 5; 6]%Q)
    by (apply Forall_forall; intros x _; apply ExactRounding_exact).
  split; [exact Hexact|].
  exact (proj1 (proj2 findShortestPaths_detour_not_shortest)
           ListPQ ListPQ_spec ExactRounding Hexact).
Defined.

(** C6 on the code.  [DijkstraInfo::d] is an [int]: the sum
    [vD.d + edgeWeightFunc(...)] is compared as a [double] and then stored
    truncated.  On [graph_fractional] from the start [1], whatever queue
    meets the contract and whatever rounding returns the sums 3/4, 3/2 and
    7/8 of the run unchanged, the distance stored for [2] is 0, not 3/4; the edge
    [2 -> 3] of weight 7/8 then improves on the stored distance 1 of [3],
    and [3] gets the predecessor [2], although the edge [1 -> 3] is lighter
    than the path [1, 2, 3]. *)
Theorem findShortestPaths_truncates_distances :
  apply_mutations Digraph_new build_fractional = Returns graph_fractional ∧
  (∀ (PQ : PriorityQueue) (PQS : PriorityQueueSpec PQ) (R : Rounding),
     Forall (fl_exact (R := R)) [3 # 4; 3 # 2; 7 # 8]%Q ->
     ∃ vData,
       findShortestPaths_vData (PQ := PQ) (R := R) graph_fractional 1 weight_of
         = Ok vData ∧
       d <$> vData !! 2 = Some 0 ∧
       findShortestPaths (PQ := PQ) (R := R) graph_fractional 1 weight_of =
         Ok {[ 1 := 1; 2 := 1; 3 := 2 ]}) ∧
  path_weight graph_fractional weight_of [1; 2] = Some (3 # 4)%Q ∧
  ∃ direct detour,
    path_weight graph_fractional weight_of [1; 3] = Some direct ∧
    path_weight graph_fractional weight_of [1; 2; 3] = Some detour ∧
    (direct < detour)%Q.
Proof.
  split; [apply build_fractional_returns|]. split; [|split].
  - intros PQ PQS R Hexact. eexists. split; [|split].
    + apply (findShortestPaths_vData_reference _ (exact_table_rounds _ Hexact)).
      by vm_compute.
    + by vm_compute.
    + apply (findShortestPaths_reference _ (exact_table_rounds _ Hexact)).
      by vm_compute.
  - by vm_compute.
  - eexists _, _. split; [by vm_compute|]. split; [by vm_compute|]. done.
Qed.

Lemma findShortestPaths_truncates_distances_witness :
  Forall (fl_exact (R := ExactRounding)) [3 # 4; 3 # 2; 7 # 8]%Q ∧
  ∃ vData,
    findShortestPaths_vData (PQ := ListPQ) (R := ExactRounding)
      graph_fractional 1 weight_of = Ok vData ∧
    d <$> vData !! 2 = Some 0 ∧
    findShortestPaths (PQ := ListPQ) (R := ExactRounding)
      graph_fractional 1 weight_of = Ok {[ 1 := 1; 2 := 1; 3 := 2 ]}.
Proof.
  assert (Hexact : Forall (fl_exact (R := ExactRounding)) [3 # 4; 3 # 2; 7 # 8]%Q)
    by (apply Forall_forall; intros x _; apply ExactRounding_exact).
  split; [exact Hexact|].
  exact (proj1 (proj2 findShortestPaths_truncates_distances)
           ListPQ ListPQ_spec ExactRounding Hexact).
Defined.

(** ** The iteration order, again *)

Global Instance key_le_total {A : Type} : Total (@key_le A).
Proof. intros x y. unfold key_le. lia. Qed.

Global Instance key_le_trans {A : Type} : Transitive (@key_le A).
Proof. intros x y z. unfold key_le. lia. Qed.

Lemma map_iter_sorted {A : Type} (m : gmap Z A) : StronglySorted key_lt (map_iter m).
Proof.
  pose proof (NoDup_map_iter_keys m) as Hnd.
  assert (Hs : StronglySorted key_le (map_iter m)).
  { apply StronglySorted_merge_sort; apply _. }
  induction Hs as [|x l _ IH Hx]; [constructor|].
  cbn [fmap list_fmap] in Hnd. apply NoDup_cons in Hnd as [Hx' Hnd].
  constructor; [by apply IH|].
  rewrite Forall_forall in Hx |- *. intros y Hy.
  specialize (Hx y Hy). unfold key_le, key_lt in *.
  assert (x.1 ≠ y.1); [|lia].
  intros Heq. apply Hx'. rewrite Heq. by apply list_elem_of_fmap_2.
Qed.

Lemma key_sorted_unique {A : Type} (l1 l2 : list (Z * A)) :
  StronglySorted key_lt l1 -> StronglySorted key_lt l2 -> l1 ≡ₚ l2 -> l1 = l2.
Proof.
  apply StronglySorted_unique_strong.
  intros x1 x2 _ _. unfold key_lt. lia.
Qed.

Lemma map_iter_unique {A : Type} (m : gmap Z A) (l : list (Z * A)) :
  StronglySorted key_lt l -> l ≡ₚ map_to_list m -> l = map_iter m.
Proof.
  intros Hl Hperm. apply key_sorted_unique; [done|apply map_iter_sorted|].
  by rewrite Hperm, map_iter_perm.
Qed.

Lemma key_sorted_split {A : Type} (l : list (Z * A)) (k : Z) :
  StronglySorted key_lt l -> k ∉ l.*1 ->
  ∃ l1 l2, l = l1 ++ l2 ∧
    Forall (fun kv => kv.1 < k) l1 ∧ Forall (fun kv => k < kv.1) l2.
Proof.
  intros Hl. induction Hl as [|x l Hl IH Hx]; intros Hk.
  - by exists [], [].
  - cbn [fmap list_fmap] in Hk. apply not_elem_of_cons in Hk as [Hkx Hk].
    destruct (decide (x.1 < k)) as [Hlt|Hge].
    + destruct (IH Hk) as (l1&l2&->&H1&H2).
      exists (x :: l1), l2. split; [done|]. split; [by constructor|done].
    + exists [], (x :: l). split; [done|]. split; [constructor|].
      constructor; [lia|]. eapply Forall_impl; [exact Hx|].
      intros y. unfold key_lt. lia.
Qed.

(** Inserting a new key puts the entry at its place in the order and
    leaves the other entries where they are. *)
Lemma map_iter_insert_fresh {A : Type} (m : gmap Z A) (k : Z) (x : A) :
  m !! k = None ->
  ∃ l1 l2, map_iter m = l1 ++ l2 ∧
           map_iter (<[k := x]> m) = l1 ++ (k, x) :: l2.
Proof.
  intros Hk.
  destruct (key_sorted_split (map_iter m) k (map_iter_sorted m))
    as (l1&l2&Hm&H1&H2).
  { rewrite elem_of_map_iter_keys, Hk. by intros [? ?]. }
  exists l1, l2. split; [done|]. symmetry. apply map_iter_unique.
  - pose proof (map_iter_sorted m) as Hs. rewrite Hm in Hs.
    apply StronglySorted_app in Hs as (H12&Hs1&Hs2).
    apply StronglySorted_app_2; [|done|].
    + intros y1 y2 Hy1 [->|Hy2]%elem_of_cons.
      * rewrite Forall_forall in H1. by apply H1.
      * by apply H12.
    + constructor; [done|]. eapply Forall_impl; [exact H2|]. done.
  - rewrite map_to_list_insert by done. rewrite <-map_iter_perm, Hm.
    by rewrite Permutation_middle.
Qed.

(** Changing the value stored at a key leaves every entry at its place. *)
Lemma map_iter_update {A : Type} (m : gmap Z A) (k : Z) (x : A) :
  m !! k = Some x ->
  ∃ l1 l2, map_iter m = l1 ++ (k, x) :: l2 ∧
           map_iter (delete k m) = l1 ++ l2 ∧
           ∀ y, map_iter (<[k := y]> m) = l1 ++ (k, y) :: l2.
Proof.
  intros Hk.
  destruct (key_sorted_split (map_iter (delete k m)) k (map_iter_sorted _))
    as (l1&l2&Hm&H1&H2).
  { rewrite elem_of_map_iter_keys, lookup_delete_eq. by intros [? ?]. }
  assert (Hins : ∀ y, map_iter (<[k := y]> m) = l1 ++ (k, y) :: l2).
  { intros y. rewrite <-insert_delete_eq. symmetry. apply map_iter_unique.
    - pose proof (map_iter_sorted (delete k m)) as Hs. rewrite Hm in Hs.
      apply StronglySorted_app in Hs as (H12&Hs1&Hs2).
      apply StronglySorted_app_2; [|done|].
      + intros y1 y2 Hy1 [->|Hy2]%elem_of_cons.
        * rewrite Forall_forall in H1. by apply H1.
        * by apply H12.
      + constructor; [done|]. eapply Forall_impl; [exact H2|]. done.
    - rewrite map_to_list_insert by apply lookup_delete_eq.
      rewrite <-map_iter_perm, Hm. by rewrite Permutation_middle. }
  exists l1, l2. split; [|done].
  rewrite <-(Hins x). by rewrite insert_id.
Qed.

(** ** The observers and the mutators, from outside *)

Section Observers.

Context {VertexInfo EdgeInfo : Type}.
Abbreviation Graph := (Digraph VertexInfo EdgeInfo).
Abbreviation Vertex := (DigraphVertex VertexInfo EdgeInfo).
Abbreviation Edge := (DigraphEdge EdgeInfo).

Lemma elem_of_vertices (g : Graph) (k : Z) :
  k ∈ vertices g ↔ is_Some (container g !! k).
Proof. apply elem_of_map_iter_keys. Qed.

Lemma pairs_of_app (l1 l2 : list (Z * Vertex)) :
  pairs_of (l1 ++ l2) = pairs_of l1 ++ pairs_of l2.
Proof. apply flat_map_app. Qed.

Lemma pairs_of_cons (k : Z) (v : Vertex) (l : list (Z * Vertex)) :
  pairs_of ((k, v) :: l) = map edge_pair (edges v) ++ pairs_of l.
Proof. done. Qed.

Lemma length_pairs_of (l : list (Z * Vertex)) :
  length (pairs_of l) = sum_list_with (fun kv => length (edges kv.2)) l.
Proof.
  induction l as [|[k v] l IH]; [done|].
  rewrite pairs_of_cons, length_app, length_map, IH. done.
Qed.

Lemma edgeCount_length (g : Graph) :
  edgeCount g = Z.of_nat (length (Digraph_edges g)).
Proof.
  unfold edgeCount. rewrite edgeCount_foldl, Z.add_0_l.
  by rewrite <-length_pairs_of.
Qed.

(** X1.  [vertices()] lists the identifiers in strictly increasing order,
    so each one once, and an identifier is listed exactly when
    [vertexInfo] returns for it. *)
Theorem vertices_increasing (g : Graph) :
  StronglySorted Z.lt (vertices g) ∧
  ∀ k, k ∈ vertices g ↔ ∃ vi, vertexInfo g k = Ok vi.
Proof.
  split.
  - unfold vertices. pose proof (map_iter_sorted (container g)) as Hs.
    induction Hs as [|x l _ IH Hx]; [constructor|].
    cbn [fmap list_fmap]. constructor; [done|].
    apply Forall_fmap. eapply Forall_impl; [exact Hx|]. by intros [k v].
  - intros k. rewrite elem_of_vertices. unfold vertexInfo.
    destruct (container g !! k) as [v|]; split.
    + eauto.
    + eauto.
    + by intros [? ?].
    + by intros [? ?].
Qed.

(** X2.  [vertexCount()] is the length of [vertices()], [edgeCount()] is
    the length of [edges()], and [edgeCount(v)] is the length of
    [edges(v)] and throws exactly when [edges(v)] throws. *)
Theorem counts_are_lengths (g : Graph) :
  vertexCount g = Z.of_nat (length (vertices g)) ∧
  edgeCount g = Z.of_nat (length (Digraph_edges g)) ∧
  ∀ k,
    match Digraph_edges_from g k with
    | Ok l => edgeCount_from g k = Ok (Z.of_nat (length l))
    | _ => edgeCount_from g k =
             Throw (DigraphException "When edgeCount, vertex not found!")
    end.
Proof.
  split; [|split].
  - unfold vertexCount, vertices. by rewrite length_fmap, length_map_iter.
  - apply edgeCount_length.
  - intros k. unfold Digraph_edges_from, edgeCount_from.
    destruct (container g !! k); [|done]. by rewrite length_map.
Qed.

(** X3.  [edges()] is the concatenation of [edges(v)] over the vertices
    [v] in the order of [vertices()]. *)
Theorem edges_concat_by_vertex (g : Graph) :
  ∃ ls, Forall2 (fun k l => Digraph_edges_from g k = Ok l) (vertices g) ls ∧
        Digraph_edges g = concat ls.
Proof.
  unfold vertices, Digraph_edges.
  assert (Hall : ∀ k v, (k, v) ∈ map_iter (container g) ->
    container g !! k = Some v) by (intros k v; apply elem_of_map_iter).
  induction (map_iter (container g)) as [|[k v] l IH].
  - exists []. by split; [constructor|].
  - destruct IH as (ls&Hls&Heq).
    { intros k' v' ?. apply Hall. by right. }
    exists (map edge_pair (edges v) :: ls). split.
    + constructor; [|done]. unfold Digraph_edges_from. simpl.
      by rewrite (Hall k v) by left.
    + fold (pairs_of ((k, v) :: l)). rewrite pairs_of_cons. simpl.
      f_equal. exact Heq.
Qed.

Lemma find_edge_Some (to : Z) (l : list Edge) (e : Edge) :
  find_edge to l = Some e -> e ∈ l ∧ toVertex e = to.
Proof.
  induction l as [|a l IH]; simpl; [done|].
  case_decide as Ha.
  - intros [= <-]. split; [left|done].
  - intros [He Hto]%IH. split; [by right|done].
Qed.

Lemma find_edge_None (to : Z) (l : list Edge) :
  find_edge to l = None ↔ Forall (fun e => toVertex e ≠ to) l.
Proof.
  induction l as [|a l IH]; simpl; [by split; [constructor|]|].
  case_decide as Ha.
  - split; [done|]. by intros [? _]%Forall_cons.
  - rewrite IH, Forall_cons. tauto.
Qed.

Lemma erase_first_None (to : Z) (l : list Edge) :
  erase_first to l = None ↔ find_edge to l = None.
Proof.
  induction l as [|a l IH]; simpl; [done|].
  case_decide; [done|]. rewrite <-IH.
  destruct (erase_first to l); simpl; split; done.
Qed.

Lemma erase_first_split (to : Z) (l l' : list Edge) :
  erase_first to l = Some l' ->
  ∃ l1 e l2, l = l1 ++ e :: l2 ∧ l' = l1 ++ l2 ∧ toVertex e = to ∧
             Forall (fun e' => toVertex e' ≠ to) l1.
Proof.
  revert l'. induction l as [|a l IH]; intros l'; simpl; [done|].
  case_decide as Ha.
  - intros [= <-]. by exists [], a, l.
  - destruct (erase_first to l) as [l''|]; simpl; [|done].
    intros [= <-]. destruct (IH l'' eq_refl) as (l1&e&l2&->&->&Hto&Hl1).
    exists (a :: l1), e, l2. split; [done|]. split; [done|].
    split; [done|]. by constructor.
Qed.

(** X4.  On a well-formed graph the pair [(a, b)] is listed by [edges()]
    exactly when [edgeInfo(a, b)] returns a payload, and exactly when
    [removeEdge(a, b)] returns. *)
Theorem edge_table_iff (g : Graph) (a b : Z) :
  well_formed g ->
  ((a, b) ∈ Digraph_edges g ↔ ∃ x, edgeInfo g a b = Ok x) ∧
  ((a, b) ∈ Digraph_edges g ↔ ∃ g', removeEdge g a b = Returns g').
Proof.
  intros Hwf.
  assert (Hfind : (a, b) ∈ Digraph_edges g ↔
    ∃ v e, container g !! a = Some v ∧ find_edge b (edges v) = Some e).
  { rewrite elem_of_Digraph_edges. split.
    - intros (k&v&e&Hv&He&[= Hfrom Hto]).
      destruct (Hwf k v e Hv He) as [Hk _]. rewrite Hfrom in Hk. subst k.
      destruct (find_edge b (edges v)) as [e'|] eqn:Hfind; [by eauto|].
      apply find_edge_None in Hfind. rewrite Forall_forall in Hfind.
      by destruct (Hfind e He).
    - intros (v&e&Hv&[He Hto]%find_edge_Some).
      exists a, v, e. split; [done|]. split; [done|].
      unfold edge_pair. by destruct (Hwf a v e Hv He) as [-> _]; rewrite Hto. }
  split; rewrite Hfind.
  - unfold edgeInfo. split.
    + intros (v&e&->&->). eauto.
    + destruct (container g !! a) as [v|]; [|by intros [? ?]].
      destruct (find_edge b (edges v)) as [e|] eqn:He; [intros _; by exists v, e|by intros [? ?]].
  - unfold removeEdge. split.
    + intros (v&e&->&He).
      destruct (erase_first b (edges v)) as [l'|] eqn:Hl'; [eauto|].
      apply erase_first_None in Hl'. congruence.
    + destruct (container g !! a) as [v|]; [|by intros [? ?]].
      destruct (erase_first b (edges v)) as [l'|] eqn:Hl'; [|by intros [? ?]].
      intros _. destruct (find_edge b (edges v)) as [e|] eqn:He; [by exists v, e|].
      apply erase_first_None in He. congruence.
Qed.

End Observers.

(** ** What the mutating calls change *)

Section MutatorEffects.

Context {VertexInfo EdgeInfo : Type}.
Abbreviation Graph := (Digraph VertexInfo EdgeInfo).
Abbreviation Vertex := (DigraphVertex VertexInfo EdgeInfo).
Abbreviation Edge := (DigraphEdge EdgeInfo).

Lemma filter_all {A : Type} (P : A -> Prop) `{!∀ x, Decision (P x)} (l : list A) :
  Forall P l -> filter P l = l.
Proof.
  induction 1 as [|x l Hx _ IH]; [done|].
  by rewrite filter_cons_True, IH.
Qed.

Lemma filter_none {A : Type} (P : A -> Prop) `{!∀ x, Decision (P x)} (l : list A) :
  Forall (fun x => ¬ P x) l -> filter P l = [].
Proof.
  induction 1 as [|x l Hx _ IH]; [done|].
  by rewrite filter_cons_False.
Qed.

(** X5.  [addVertex] with an identifier that [vertices()] does not list
    returns; afterwards the identifier is listed with the given payload and
    no edge, the count of vertices is one more, and [edges()], the payloads
    and the edges of the other vertices are as before. *)
Theorem addVertex_fresh (g : Graph) (v : Z) (vi : VertexInfo) :
  v ∉ vertices g ->
  ∃ g', addVertex g v vi = Returns g' ∧
    vertexInfo g' v = Ok vi ∧
    Digraph_edges_from g' v = Ok [] ∧
    vertices g' ≡ₚ v :: vertices g ∧
    vertexCount g' = vertexCount g + 1 ∧
    Digraph_edges g' = Digraph_edges g ∧
    ∀ k, k ≠ v ->
      vertexInfo g' k = vertexInfo g k ∧
      Digraph_edges_from g' k = Digraph_edges_from g k.
Proof.
  rewrite elem_of_vertices. intros Hv.
  assert (Hnone : container g !! v = None).
  { destruct (container g !! v) eqn:H; [|done]. exfalso. apply Hv. eauto. }
  unfold addVertex. rewrite Hnone. eexists. split; [done|].
  destruct (map_iter_insert_fresh (container g) v
    {| vinfo := vi; edges := [] |} Hnone) as (l1&l2&Hm&Hm').
  unfold vertexInfo, Digraph_edges_from, vertices, vertexCount, Digraph_edges.
  cbn [container]. rewrite lookup_insert_eq, Hm, Hm'.
  split; [done|]. split; [done|]. split.
  { rewrite !fmap_app. cbn [fmap list_fmap fst]. by rewrite <-Permutation_middle. }
  split.
  { rewrite map_size_insert_None by done. lia. }
  split.
  { fold (pairs_of (l1 ++ (v, {| vinfo := vi; edges := [] |}) :: l2)).
    fold (pairs_of (l1 ++ l2)). by rewrite !pairs_of_app, pairs_of_cons. }
  intros k Hk. by rewrite lookup_insert_ne.
Qed.

(** X6.  When [addEdge(a, b, x)] returns, both endpoints are vertices;
    the vertices and their payloads are as before, [edges(a)] has the pair
    [(a, b)] appended at its end, the edges of the other vertices are as
    before, and [edges()] holds one more pair [(a, b)]. *)
Theorem addEdge_effects (g g' : Graph) (a b : Z) (x : EdgeInfo) :
  addEdge g a b x = Returns g' ->
  a ∈ vertices g ∧ b ∈ vertices g ∧
  vertices g' = vertices g ∧
  (∀ k, vertexInfo g' k = vertexInfo g k) ∧
  (∃ l, Digraph_edges_from g a = Ok l ∧
        Digraph_edges_from g' a = Ok (l ++ [(a, b)])) ∧
  (∀ k, k ≠ a -> Digraph_edges_from g' k = Digraph_edges_from g k) ∧
  Digraph_edges g' ≡ₚ (a, b) :: Digraph_edges g ∧
  edgeCount g' = edgeCount g + 1.
Proof.
  unfold addEdge.
  destruct (container g !! a) as [va|] eqn:Ha; [|done].
  destruct (container g !! b) as [vb|] eqn:Hb; [|done].
  intros [= <-].
  destruct (map_iter_update (container g) a va Ha) as (l1&l2&Hm&_&Hm').
  assert (Hedges : Digraph_edges
    {| container := <[a := {| vinfo := vinfo va;
         edges := edges va ++ [mkEdge a b x] |}]> (container g) |}
    ≡ₚ (a, b) :: Digraph_edges g).
  { unfold Digraph_edges. cbn [container]. rewrite Hm, Hm'.
    fold (pairs_of (l1 ++ (a, {| vinfo := vinfo va;
            edges := edges va ++ [mkEdge a b x] |}) :: l2)).
    fold (pairs_of (l1 ++ (a, va) :: l2)).
    rewrite !pairs_of_app, !pairs_of_cons. cbn [edges].
    rewrite map_app. cbn [map edge_pair fromVertex toVertex].
    rewrite <-!app_assoc. cbn [app].
    rewrite (Permutation_middle (pairs_of l1)).
    rewrite <-(Permutation_middle (map edge_pair (edges va))). done. }
  split; [rewrite elem_of_vertices; eauto|].
  split; [rewrite elem_of_vertices; eauto|].
  split; [unfold vertices; cbn [container]; by rewrite Hm, Hm', !fmap_app|].
  split.
  { intros k. unfold vertexInfo. cbn [container]. rewrite lookup_insert.
    case_decide as Hk; [subst k; by rewrite Ha|done]. }
  split.
  { exists (map edge_pair (edges va)). unfold Digraph_edges_from.
    cbn [container]. rewrite Ha, lookup_insert_eq. cbn [edges].
    by rewrite map_app. }
  split.
  { intros k Hk. unfold Digraph_edges_from. cbn [container].
    by rewrite lookup_insert_ne. }
  split; [done|].
  rewrite !edgeCount_length, Hedges. cbn [length]. lia.
Qed.

(** X7.  After [addEdge(a, b, x)] has returned, [edgeInfo(a, b)] is the
    payload it returned before if it did return one, and [x] otherwise;
    [edgeInfo] on every other pair is as before. *)
Theorem addEdge_then_edgeInfo (g g' : Graph) (a b : Z) (x : EdgeInfo) :
  addEdge g a b x = Returns g' ->
  edgeInfo g' a b =
    match edgeInfo g a b with
    | Ok y => Ok y
    | _ => Ok x
    end ∧
  ∀ a' b', (a', b') ≠ (a, b) -> edgeInfo g' a' b' = edgeInfo g a' b'.
Proof.
  unfold addEdge.
  destruct (container g !! a) as [va|] eqn:Ha; [|done].
  destruct (container g !! b) as [vb|] eqn:Hb; [|done].
  intros [= <-].
  assert (Hfind : ∀ to, find_edge to (edges va ++ [mkEdge a b x]) =
    match find_edge to (edges va) with
    | Some e => Some e
    | None => if decide (b = to) then Some (mkEdge a b x) else None
    end).
  { intros to. induction (edges va) as [|e l IH];
      cbn [find_edge app toVertex]; [done|].
    destruct (decide (toVertex e = to)); [done|exact IH]. }
  unfold edgeInfo. cbn [container]. split.
  - rewrite lookup_insert_eq, Ha. cbn [edges]. rewrite Hfind.
    destruct (find_edge b (edges va)); [done|]. by rewrite decide_True.
  - intros a' b' Hne. rewrite lookup_insert. case_decide as Hk; [subst a'|done].
    rewrite Ha. cbn [edges]. rewrite Hfind.
    destruct (find_edge b' (edges va)); [done|].
    rewrite decide_False; [done|]. intros ->. done.
Qed.

(** X8.  If [edgeInfo(a, b)] does not return on [g] and [addEdge(a, b, x)]
    returns, then [removeEdge(a, b)] on the result gives [g] back. *)
Theorem removeEdge_undoes_addEdge (g g' : Graph) (a b : Z) (x : EdgeInfo) :
  (∀ y, edgeInfo g a b ≠ Ok y) ->
  addEdge g a b x = Returns g' ->
  removeEdge g' a b = Returns g.
Proof.
  unfold addEdge, edgeInfo. intros Hnone.
  destruct (container g !! a) as [va|] eqn:Ha; [|done].
  destruct (container g !! b) as [vb|] eqn:Hb; [|done].
  intros [= <-].
  assert (Hl : Forall (fun e => toVertex e ≠ b) (edges va)).
  { apply find_edge_None. destruct (find_edge b (edges va)) as [e|]; [|done].
    by destruct (Hnone (einfo e)). }
  unfold removeEdge. cbn [container]. rewrite lookup_insert_eq. cbn [edges vinfo].
  rewrite (erase_first_first b (edges va) [] (mkEdge a b x)) by done.
  rewrite app_nil_r, insert_insert_eq, vertex_eta, insert_id by done.
  by destruct g.
Qed.

(** X9.  On a well-formed graph, when [removeEdge(a, b)] returns, the
    vertices and their payloads are as before, [edges(a)] has lost its first
    pair [(a, b)] and nothing else, the edges of the other vertices are as
    before, and [edges()] holds one pair [(a, b)] less. *)
Theorem removeEdge_effects (g g' : Graph) (a b : Z) :
  well_formed g ->
  removeEdge g a b = Returns g' ->
  vertices g' = vertices g ∧
  (∀ k, vertexInfo g' k = vertexInfo g k) ∧
  (∃ l1 l2, Digraph_edges_from g a = Ok (l1 ++ (a, b) :: l2) ∧
            ((a, b) ∉ l1) ∧
            Digraph_edges_from g' a = Ok (l1 ++ l2)) ∧
  (∀ k, k ≠ a -> Digraph_edges_from g' k = Digraph_edges_from g k) ∧
  Digraph_edges g ≡ₚ (a, b) :: Digraph_edges g' ∧
  edgeCount g' = edgeCount g - 1.
Proof.
  intros Hwf. unfold removeEdge.
  destruct (container g !! a) as [va|] eqn:Ha; [|done].
  destruct (erase_first b (edges va)) as [temp|] eqn:Htemp; [|done].
  intros [= <-].
  destruct (erase_first_split _ _ _ Htemp) as (e1&e&e2&Hl&->&Hto&He1).
  assert (Hpair : edge_pair e = (a, b)).
  { unfold edge_pair. rewrite Hto.
    destruct (Hwf a va e Ha) as [-> _]; [|done]. rewrite Hl.
    apply elem_of_app. right. left. }
  destruct (map_iter_update (container g) a va Ha) as (l1&l2&Hm&_&Hm').
  assert (Hedges : Digraph_edges g ≡ₚ (a, b) :: Digraph_edges
    {| container := <[a := {| vinfo := vinfo va; edges := e1 ++ e2 |}]>
         (container g) |}).
  { unfold Digraph_edges. cbn [container]. rewrite Hm, Hm'.
    fold (pairs_of (l1 ++ (a, {| vinfo := vinfo va; edges := e1 ++ e2 |}) :: l2)).
    fold (pairs_of (l1 ++ (a, va) :: l2)).
    rewrite !pairs_of_app, !pairs_of_cons. cbn [edges].
    rewrite Hl, !map_app. cbn [map]. rewrite Hpair.
    rewrite <-!app_assoc. cbn [app].
    rewrite <-(Permutation_middle (map edge_pair e1)).
    by rewrite <-(Permutation_middle (pairs_of l1)). }
  split; [unfold vertices; cbn [container]; by rewrite Hm, Hm', !fmap_app|].
  split.
  { intros k. unfold vertexInfo. cbn [container]. rewrite lookup_insert.
    case_decide as Hk; [subst k; by rewrite Ha|done]. }
  split.
  { exists (map edge_pair e1), (map edge_pair e2). unfold Digraph_edges_from.
    cbn [container]. rewrite Ha, lookup_insert_eq, Hl. cbn [edges].
    rewrite !map_app. cbn [map]. rewrite Hpair. split; [done|]. split; [|done].
    intros (e'&Heq&He')%list_elem_of_fmap.
    rewrite Forall_forall in He1. apply (He1 e' He').
    unfold edge_pair in Heq. congruence. }
  split.
  { intros k Hk. unfold Digraph_edges_from. cbn [container].
    by rewrite lookup_insert_ne. }
  split; [done|].
  rewrite !edgeCount_length, Hedges. cbn [length]. lia.
Qed.

End MutatorEffects.

Section RemoveVertexEffects.

Context {VertexInfo EdgeInfo : Type}.
Abbreviation Graph := (Digraph VertexInfo EdgeInfo).
Abbreviation Vertex := (DigraphVertex VertexInfo EdgeInfo).
Abbreviation Edge := (DigraphEdge EdgeInfo).

Lemma pairs_of_from (g : Graph) (l : list (Z * Vertex)) (a b : Z) :
  well_formed g -> (∀ k v, (k, v) ∈ l -> container g !! k = Some v) ->
  (a, b) ∈ pairs_of l -> a ∈ l.*1.
Proof.
  intros Hwf Hl. unfold pairs_of. rewrite list_elem_of_In, in_flat_map.
  intros ([k v]&Hkv%list_elem_of_In&Hab%list_elem_of_In).
  apply list_elem_of_fmap in Hab as (e&[= -> ->]&He).
  destruct (Hwf k v e (Hl k v Hkv) He) as [-> _].
  apply list_elem_of_fmap. by exists (k, v).
Qed.

(** X10.  On a well-formed graph, when [removeVertex(v)] returns, [v] is
    gone from [vertices()], [edges()] has lost exactly the pairs that leave
    [v], no remaining pair touches [v], the count of vertices is one less,
    and the payloads and edges of the other vertices are as before. *)
Theorem removeVertex_effects (g g' : Graph) (v : Z) :
  well_formed g ->
  removeVertex g v = Returns g' ->
  vertices g' = filter (fun k => k ≠ v) (vertices g) ∧
  Digraph_edges g' = filter (fun ab => ab.1 ≠ v) (Digraph_edges g) ∧
  (∀ a b, (a, b) ∈ Digraph_edges g' -> a ≠ v ∧ b ≠ v) ∧
  vertexCount g' = vertexCount g - 1 ∧
  ∀ k, k ≠ v ->
    vertexInfo g' k = vertexInfo g k ∧
    Digraph_edges_from g' k = Digraph_edges_from g k.
Proof.
  intros Hwf Hrm.
  destruct (removeVertex_returns_spec g g' v Hwf Hrm) as (_&_&Hnone).
  destruct (removeVertex_cases g v) as [[_ H]|[([x Hx]&H&_)|[_ H]]];
    rewrite H in Hrm; try done.
  injection Hrm as <-.
  destruct (map_iter_update (container g) v x Hx) as (l1&l2&Hm&Hm'&_).
  assert (Hall : ∀ k u, (k, u) ∈ l1 ++ (v, x) :: l2 -> container g !! k = Some u).
  { intros k u. rewrite <-Hm. apply elem_of_map_iter. }
  pose proof (NoDup_map_iter_keys (container g)) as Hnd.
  rewrite Hm, fmap_app in Hnd. cbn [fmap list_fmap fst] in Hnd.
  apply NoDup_app in Hnd as (_&Hl1&[Hl2 _]%NoDup_cons).
  split; [|split; [|split; [done|split]]].
  - unfold vertices. cbn [container]. rewrite Hm, Hm', !fmap_app.
    cbn [fmap list_fmap fst].
    rewrite filter_app, filter_cons_False by (intros ?; done).
    rewrite !filter_all; [done| |].
    + apply Forall_forall. intros k Hk ->. done.
    + apply Forall_forall. intros k Hk ->. apply (Hl1 v Hk). left.
  - unfold Digraph_edges. cbn [container]. rewrite Hm, Hm'.
    fold (pairs_of (l1 ++ (v, x) :: l2)). fold (pairs_of (l1 ++ l2)).
    rewrite !pairs_of_app, pairs_of_cons, !filter_app.
    rewrite (filter_none _ (map edge_pair (edges x))).
    + rewrite !filter_all; [done| |].
      * apply Forall_forall. intros [a b] Hab. simpl. intros ->.
        apply Hl2. eapply (pairs_of_from g l2 v b); [done| |done].
        intros k u Hku. apply Hall. apply elem_of_app. right. by right.
      * apply Forall_forall. intros [a b] Hab. simpl. intros ->.
        apply (Hl1 v); [|left]. eapply (pairs_of_from g l1 v b); [done| |done].
        intros k u Hku. apply Hall. apply elem_of_app. by left.
    + apply Forall_forall. intros ab (e&->&He)%list_elem_of_fmap. simpl.
      destruct (Hwf v x e Hx He) as [-> _]. by intros ?.
  - unfold vertexCount. cbn [container].
    rewrite map_size_delete_Some by eauto.
    assert (size (container g) ≠ 0%nat); [|lia].
    intros Hz. apply map_size_empty_iff in Hz. by rewrite Hz in Hx.
  - intros k Hk. unfold vertexInfo, Digraph_edges_from. cbn [container].
    by rewrite lookup_delete_ne.
Qed.

(** X11.  On a well-formed graph [removeVertex(v)] is undefined exactly
    when [v] is a vertex and [edges()] lists a pair that enters [v] from
    another vertex. *)
Theorem removeVertex_undefined_iff (g : Graph) (v : Z) :
  well_formed g ->
  removeVertex g v = UndefinedBehaviour ↔
    v ∈ vertices g ∧ ∃ a, a ≠ v ∧ (a, v) ∈ Digraph_edges g.
Proof.
  intros Hwf. rewrite elem_of_vertices. split.
  - intros Hub. unfold removeVertex in Hub.
    destruct (container g !! v) as [x|] eqn:Hx; [|done].
    split; [eauto|]. simpl in Hub.
    destruct (removeVertex_loop_cases v
      (map_iter (delete v (container g))) (delete v (container g)))
      as [[Hok _]|[_ (k&u&e&Hin&He&Hto)]].
    + intros k u. by rewrite elem_of_map_iter.
    + by rewrite Hok in Hub.
    + apply elem_of_map_iter, lookup_delete_Some in Hin as [Hk Hu].
      exists k. split; [done|]. apply elem_of_Digraph_edges.
      exists k, u, e. split; [done|]. split; [done|].
      unfold edge_pair. by destruct (Hwf k u e Hu He) as [-> _]; rewrite Hto.
  - intros [Hv (a&Ha&(k&u&e&Hu&He&[= Hfrom Hto])%elem_of_Digraph_edges)].
    destruct (Hwf k u e Hu He) as [Hk _]. rewrite Hfrom in Hk. subst k.
    by eapply removeVertex_incoming.
Qed.

(** X12.  In every graph that the public calls can build, both endpoints
    of every pair of [edges()] are listed by [vertices()]. *)
Theorem constructible_no_dangling (g : Graph) (a b : Z) :
  constructible g -> (a, b) ∈ Digraph_edges g ->
  a ∈ vertices g ∧ b ∈ vertices g.
Proof.
  intros Hwf%constructible_well_formed (k&u&e&Hu&He&[= Hfrom Hto])%elem_of_Digraph_edges.
  destruct (Hwf k u e Hu He) as [Hk Hb]. rewrite !elem_of_vertices.
  rewrite <-Hfrom, <-Hto, Hk. split; [eauto|done].
Qed.

End RemoveVertexEffects.

(** ** The copy constructor and the copy assignment *)

Section CopyFacts.

Context {VertexInfo EdgeInfo : Type}.
Abbreviation Graph := (Digraph VertexInfo EdgeInfo).
Abbreviation Vertex := (DigraphVertex VertexInfo EdgeInfo).
Abbreviation Edge := (DigraphEdge EdgeInfo).

Lemma copyable_dec (present : gset Z) (its : list (Z * Vertex)) :
  copyable present its ∨ ¬ copyable present its.
Proof.
  revert present. induction its as [|[k v] its IH]; intros present; simpl.
  - by left.
  - destruct (decide (Forall (fun e => toVertex e ∈ present ∪ {[ k ]}) (edges v)));
      [|right; tauto].
    destruct (IH (present ∪ {[ k ]})); [left|right]; tauto.
Qed.

Lemma copy_edges_spec (k : Z) (vi : VertexInfo) (l : list Edge) :
  ∀ (this : Graph) (acc : list Edge),
    container this !! k = Some {| vinfo := vi; edges := acc |} ->
    (∀ e, e ∈ l -> fromVertex e = k) ->
    (Forall (fun e => toVertex e ∈ dom (container this)) l ∧
     copy_edges this k l = Returns {| container :=
       <[k := {| vinfo := vi; edges := acc ++ l |}]> (container this) |}) ∨
    (¬ Forall (fun e => toVertex e ∈ dom (container this)) l ∧
     ∃ g', copy_edges this k l =
             Throws (DigraphException "When add, can't find endVertex!") g' ∧
           dom (container g') = dom (container this)).
Proof.
  induction l as [|e l IH]; intros this acc Hk Hfrom.
  - left. split; [constructor|]. simpl. rewrite app_nil_r, insert_id by done.
    by destruct this.
  - cbn [copy_edges]. unfold addEdge. rewrite Hk. cbn [vinfo edges].
    destruct (container this !! toVertex e) as [vt|] eqn:Hto.
    + set (this' := {| container := <[k := {| vinfo := vi;
        edges := acc ++ [mkEdge k (toVertex e) (einfo e)] |}]> (container this) |}).
      assert (Hdom : dom (container this') = dom (container this)).
      { apply dom_insert_present. by rewrite Hk. }
      assert (He : mkEdge k (toVertex e) (einfo e) = e).
      { rewrite <-(Hfrom e) by left. by destruct e. }
      destruct (IH this' (acc ++ [mkEdge k (toVertex e) (einfo e)]))
        as [[Hall ->]|[Hnot (g'&->&Hg')]].
      { subst this'. cbn [container]. by rewrite lookup_insert_eq. }
      { intros e' ?. apply Hfrom. by right. }
      * left. rewrite Hdom in Hall. split.
        -- constructor; [|done]. apply elem_of_dom. eauto.
        -- subst this'. cbn [container]. rewrite insert_insert_eq.
           by rewrite He, <-app_assoc.
      * right. rewrite Hdom in Hnot. split.
        -- by intros [_ ?]%Forall_cons.
        -- exists g'. split; [done|]. by rewrite Hg'.
    + right. split.
      * intros [He _]%Forall_cons. apply elem_of_dom in He as [? He]. congruence.
      * by exists this.
Qed.

(** The loop either copies every entry or throws at the first edge whose
    target has not been added yet. *)
Lemma copy_loop_spec (its : list (Z * Vertex)) :
  ∀ this : Graph,
    NoDup its.*1 ->
    (∀ k, k ∈ its.*1 -> container this !! k = None) ->
    (∀ k v e, (k, v) ∈ its -> e ∈ edges v -> fromVertex e = k) ->
    (copyable (dom (container this)) its ∧
     copy_loop this its =
       Returns {| container := list_to_map its ∪ container this |}) ∨
    (¬ copyable (dom (container this)) its ∧
     ∃ g', copy_loop this its =
             Throws (DigraphException "When add, can't find endVertex!") g' ∧
           dom (container g') ⊆ dom (container this) ∪ list_to_set its.*1).
Proof.
  induction its as [|[k v] its IH]; intros this Hnd Hfresh Hfrom.
  - left. split; [done|]. simpl. rewrite (left_id_L ∅ (∪)). by destruct this.
  - cbn [fmap list_fmap fst] in Hnd. apply NoDup_cons in Hnd as [Hk Hnd].
    cbn [copy_loop copyable]. unfold addVertex.
    rewrite (Hfresh k) by left.
    set (this1 := {| container :=
      <[k := {| vinfo := vinfo v; edges := [] |}]> (container this) |}).
    assert (Hdom1 : dom (container this1) = dom (container this) ∪ {[ k ]}).
    { subst this1. cbn [container]. by rewrite dom_insert_L, (comm_L (∪)). }
    destruct (copy_edges_spec k (vinfo v) (edges v) this1 [])
      as [[Hall ->]|[Hnot (g'&->&Hg')]].
    { subst this1. cbn [container]. by rewrite lookup_insert_eq. }
    { intros e He. apply (Hfrom k v e); [left|done]. }
    + rewrite Hdom1 in Hall.
      set (this2 := {| container := <[k := {| vinfo := vinfo v;
        edges := [] ++ edges v |}]> (container this1) |}).
      assert (Hc2 : container this2 = <[k := v]> (container this)).
      { subst this2 this1. cbn [container app].
        by rewrite insert_insert_eq, vertex_eta. }
      assert (Hdom2 : dom (container this2) = dom (container this) ∪ {[ k ]}).
      { by rewrite Hc2, dom_insert_L, (comm_L (∪)). }
      destruct (IH this2 Hnd) as [[Hcopy ->]|[Hnot (g'&->&Hg')]].
      { intros j Hj. rewrite Hc2, lookup_insert_ne; [apply Hfresh; by right|].
        intros ->. done. }
      { intros j u e Hj. apply Hfrom. by right. }
      * left. rewrite Hdom2 in Hcopy. split; [done|]. do 2 f_equal.
        rewrite Hc2. cbn [list_to_map foldr uncurry fst snd].
        rewrite <-insert_union_l. symmetry. apply insert_union_r.
        apply not_elem_of_list_to_map_1. done.
      * right. rewrite Hdom2 in Hnot. split; [tauto|].
        exists g'. split; [done|]. rewrite Hdom2 in Hg'.
        cbn [fmap list_fmap fst list_to_set foldr].
        intros j Hj%Hg'. rewrite !elem_of_union in Hj |- *. tauto.
    + right. rewrite Hdom1 in Hnot. split; [tauto|].
      exists g'. split; [done|]. rewrite Hg', Hdom1.
      cbn [fmap list_fmap fst list_to_set foldr].
      intros j. rewrite !elem_of_union. tauto.
Qed.

(** When the entries are in increasing order of their keys, they can be
    copied exactly when no edge goes to a greater key. *)
Lemma copyable_sorted (its : list (Z * Vertex)) :
  ∀ present : gset Z,
    StronglySorted key_lt its ->
    (∀ k v e, (k, v) ∈ its -> e ∈ edges v ->
       toVertex e ∈ present ∨ toVertex e ∈ its.*1) ->
    (∀ j kv, j ∈ present -> kv ∈ its -> j < kv.1) ->
    copyable present its ↔
      ∀ k v e, (k, v) ∈ its -> e ∈ edges v -> toVertex e <= k.
Proof.
  induction its as [|[k v] its IH]; intros present Hs Hex Hlow.
  - simpl. split; [|done]. by intros _ k v e ?%elem_of_nil.
  - apply StronglySorted_cons in Hs as [Hk Hs]. rewrite Forall_forall in Hk.
    cbn [copyable]. rewrite (IH (present ∪ {[ k ]}) Hs).
    + split.
      * intros [Hv Hrest] j u e [[= -> ->]|Hin]%elem_of_cons He.
        -- rewrite Forall_forall in Hv.
           pose proof (Hv e He) as Hmem.
           apply elem_of_union in Hmem as [Hp|Hek];
             [|apply elem_of_singleton in Hek; lia].
           specialize (Hlow (toVertex e) (k, v) Hp). simpl in Hlow.
           assert (toVertex e < k) by (apply Hlow; left). lia.
        -- by eapply Hrest.
      * intros Hall. split.
        -- apply Forall_forall. intros e He.
           specialize (Hall k v e). apply elem_of_union.
           destruct (Hex k v e) as [?|Hin]; [left|done|by left|].
           cbn [fmap list_fmap fst] in Hin.
           apply elem_of_cons in Hin as [->|Hin]; [right; by apply elem_of_singleton|].
           apply list_elem_of_fmap in Hin as (kv&Heq&Hkv).
           specialize (Hk kv Hkv). unfold key_lt in Hk. simpl in Hk.
           assert (toVertex e <= k) by (apply Hall; [left|done]). lia.
        -- intros j u e Hin. apply Hall. by right.
    + intros j u e Hin He. destruct (Hex j u e) as [?|Hto]; [by right|done| |].
      * left. apply elem_of_union. by left.
      * cbn [fmap list_fmap fst] in Hto.
        apply elem_of_cons in Hto as [->|?]; [|by right].
        left. apply elem_of_union. right. by apply elem_of_singleton.
    + intros j kv [Hj|Hj]%elem_of_union Hkv.
      * apply Hlow; [done|by right].
      * apply elem_of_singleton in Hj as ->. by apply (Hk kv Hkv).
Qed.

Lemma copyable_no_forward_edge (d : Graph) :
  well_formed d ->
  copyable ∅ (map_iter (container d)) ↔ no_forward_edge d.
Proof.
  intros Hwf. rewrite copyable_sorted.
  - unfold no_forward_edge. split.
    + intros Hall a b (k&v&e&Hv&He&[= <- <-])%elem_of_Digraph_edges.
      destruct (Hwf k v e Hv He) as [-> _]. apply (Hall k v e); [|done].
      by apply elem_of_map_iter.
    + intros Hall k v e Hv%elem_of_map_iter He. apply (Hall k).
      apply elem_of_Digraph_edges. exists k, v, e. split; [done|].
      split; [done|]. unfold edge_pair. by destruct (Hwf k v e Hv He) as [-> _].
  - apply map_iter_sorted.
  - intros k v e Hv%elem_of_map_iter He. right.
    apply elem_of_map_iter_keys. by destruct (Hwf k v e Hv He).
  - intros j kv Hj. by apply not_elem_of_empty in Hj.
Qed.

Lemma copy_loop_from_empty (d : Graph) :
  well_formed d ->
  (no_forward_edge d ∧
   copy_loop {| container := ∅ |} (map_iter (container d)) = Returns d) ∨
  (¬ no_forward_edge d ∧
   ∃ g', copy_loop {| container := ∅ |} (map_iter (container d)) =
           Throws (DigraphException "When add, can't find endVertex!") g' ∧
         ∀ k, k ∈ vertices g' -> k ∈ vertices d).
Proof.
  intros Hwf.
  destruct (copy_loop_spec (map_iter (container d)) {| container := ∅ |})
    as [[Hcopy ->]|[Hnot (g'&->&Hg')]].
  - apply NoDup_map_iter_keys.
  - intros k _. apply lookup_empty.
  - intros k v e Hv%elem_of_map_iter He. by destruct (Hwf k v e Hv He).
  - left. cbn [container] in Hcopy. rewrite dom_empty_L in Hcopy.
    split; [by apply copyable_no_forward_edge|]. f_equal.
    cbn [container]. rewrite (right_id_L ∅ (∪)).
    rewrite (list_to_map_proper _ (map_to_list (container d))).
    + rewrite list_to_map_to_list. by destruct d.
    + apply NoDup_map_iter_keys.
    + apply map_iter_perm.
  - right. cbn [container] in Hnot, Hg'. rewrite dom_empty_L in Hnot, Hg'.
    split; [by rewrite <-copyable_no_forward_edge|].
    exists g'. split; [done|]. intros k. rewrite !elem_of_vertices.
    rewrite <-elem_of_dom. intros Hk%Hg'.
    apply elem_of_union in Hk as [Hk|Hk]; [by apply not_elem_of_empty in Hk|].
    apply elem_of_list_to_set in Hk. by apply elem_of_map_iter_keys.
Qed.

(** X13.  The copy constructor of a well-formed graph in which no edge goes
    to a greater identifier returns a graph equal to the source. *)
Theorem Digraph_copy_returns (d : Graph) :
  well_formed d -> no_forward_edge d -> Digraph_copy d = Returns d.
Proof.
  intros Hwf Hno. unfold Digraph_copy, Digraph_new.
  by destruct (copy_loop_from_empty d Hwf) as [[_ ->]|[Hnot _]].
Qed.

(** X14.  The copy constructor of a well-formed graph that has an edge to a
    greater identifier throws: [addEdge] is called for that edge before its
    target has been added to the copy. *)
Theorem Digraph_copy_forward_edge_throws (d : Graph) (a b : Z) :
  well_formed d -> (a, b) ∈ Digraph_edges d -> a < b ->
  ∃ g', Digraph_copy d =
          Throws (DigraphException "When add, can't find endVertex!") g'.
Proof.
  intros Hwf Hab Hlt. unfold Digraph_copy, Digraph_new.
  destruct (copy_loop_from_empty d Hwf) as [[Hno _]|[_ (g'&->&_)]]; [|eauto].
  specialize (Hno a b Hab). lia.
Qed.

(** X15.  The copy assignment: assigning a graph to itself leaves it empty;
    assigning a well-formed graph without an edge to a greater identifier
    makes [*this] equal to it, whatever [*this] held; assigning a
    well-formed graph with such an edge throws, and [*this] then holds only
    vertices of the source: its former contents are gone. *)
Theorem Digraph_copy_assign_outcomes (this d : Graph) :
  Digraph_copy_assign this None = Returns Digraph_new ∧
  (well_formed d -> no_forward_edge d ->
     Digraph_copy_assign this (Some d) = Returns d) ∧
  (well_formed d -> ¬ no_forward_edge d ->
     ∃ g', Digraph_copy_assign this (Some d) =
             Throws (DigraphException "When add, can't find endVertex!") g' ∧
           ∀ k, k ∈ vertices g' -> k ∈ vertices d).
Proof.
  unfold Digraph_copy_assign. cbv zeta. split; [|split].
  - cbn [container]. by rewrite map_iter_empty.
  - intros Hwf Hno.
    by destruct (copy_loop_from_empty d Hwf) as [[_ ->]|[Hnot _]].
  - intros Hwf Hnot.
    by destruct (copy_loop_from_empty d Hwf) as [[Hno _]|[_ H]].
Qed.

End CopyFacts.

(** ** More on connectivity *)

Section ConnectivityFacts.

Context {VertexInfo EdgeInfo : Type}.
Abbreviation Graph := (Digraph VertexInfo EdgeInfo).
Abbreviation Vertex := (DigraphVertex VertexInfo EdgeInfo).
Abbreviation Edge := (DigraphEdge EdgeInfo).

(** X17.  [countConnectVertices] lies between 0 and the number of records,
    and it equals the number of records exactly when every record is
    [true]. *)
Theorem countConnectVertices_range (visitRecords : gmap Z bool) :
  0 <= countConnectVertices visitRecords <= Z.of_nat (size visitRecords) ∧
  (countConnectVertices visitRecords = Z.of_nat (size visitRecords) ↔
     ∀ k b, visitRecords !! k = Some b -> b = true).
Proof.
  unfold countConnectVertices.
  rewrite countConnectVertices_foldl, Z.add_0_l, <-length_map_iter.
  pose proof (length_filter (fun kv : Z * bool => kv.2 = true)
                (map_iter visitRecords)) as Hle.
  split; [lia|].
  rewrite Nat2Z.inj_iff, length_filter_all, Forall_forall. split.
  - intros Hall k b Hk. apply elem_of_map_iter in Hk. by apply (Hall _ Hk).
  - intros Hall [k b] Hk. apply elem_of_map_iter in Hk. by apply (Hall k).
Qed.

Lemma reachable_addEdge (g g' : Graph) (a b : Z) (x : EdgeInfo) (u w : Z) :
  addEdge g a b x = Returns g' -> reachable g u w -> reachable g' u w.
Proof.
  unfold addEdge.
  destruct (container g !! a) as [va|] eqn:Ha; [|done].
  destruct (container g !! b) as [vb|] eqn:Hb; [|done].
  intros [= <-]. unfold reachable. apply rtc_subrel.
  intros j k (v&e&Hv&He&Hto). unfold has_edge. cbn [container].
  destruct (decide (j = a)) as [->|Hne].
  - rewrite lookup_insert_eq. eexists _, e. split; [done|]. cbn [edges].
    rewrite Ha in Hv. injection Hv as <-. split; [|done].
    apply elem_of_app. by left.
  - rewrite lookup_insert_ne by done. by exists v, e.
Qed.

Lemma addEdge_present (g g' : Graph) (a b : Z) (x : EdgeInfo) (k : Z) :
  addEdge g a b x = Returns g' ->
  is_Some (container g' !! k) -> is_Some (container g !! k).
Proof.
  unfold addEdge.
  destruct (container g !! a) as [va|] eqn:Ha; [|done].
  destruct (container g !! b) as [vb|] eqn:Hb; [|done].
  intros [= <-]. cbn [container]. rewrite lookup_insert.
  case_decide as Hk; [subst k; by rewrite Ha|done].
Qed.

(** X18.  Adding an edge keeps a strongly connected graph strongly
    connected: if [isStronglyConnected()] returns [true] on a well-formed
    graph and [addEdge] returns, [isStronglyConnected()] returns [true] on
    the result. *)
Theorem isStronglyConnected_addEdge (g g' : Graph) (a b : Z) (x : EdgeInfo) :
  well_formed g ->
  isStronglyConnected g = Ok true ->
  addEdge g a b x = Returns g' ->
  isStronglyConnected g' = Ok true.
Proof.
  intros Hwf Hsc Hadd.
  destruct (isStronglyConnected_spec g Hwf) as (c&Hc&Hiff).
  rewrite Hsc in Hc. injection Hc as <-.
  destruct (isStronglyConnected_spec g' (well_formed_addEdge _ _ _ _ _ Hwf Hadd))
    as (c'&->&Hiff').
  f_equal. apply Hiff'. intros u w Hu Hw.
  apply (reachable_addEdge g g' a b x); [done|].
  apply Hiff; [done| |]; by eapply addEdge_present.
Qed.

(** X19.  Adding a new vertex to a well-formed graph that has a vertex
    already makes [isStronglyConnected()] return [false]: no edge enters
    the new vertex. *)
Theorem isStronglyConnected_addVertex (g g' : Graph) (v u : Z) (vi : VertexInfo) :
  well_formed g ->
  v ∉ vertices g -> u ∈ vertices g ->
  addVertex g v vi = Returns g' ->
  isStronglyConnected g' = Ok false.
Proof.
  intros Hwf Hv Hu Hadd.
  rewrite elem_of_vertices in Hv, Hu.
  assert (Hnone : container g !! v = None).
  { destruct (container g !! v) eqn:H; [|done]. exfalso. apply Hv. eauto. }
  assert (Hg' : container g' = <[v := {| vinfo := vi; edges := [] |}]> (container g)).
  { unfold addVertex in Hadd. rewrite Hnone in Hadd. by injection Hadd as <-. }
  destruct (isStronglyConnected_spec g' (well_formed_addVertex _ _ _ _ Hwf Hadd))
    as (c&->&Hiff).
  f_equal. destruct c; [|done]. exfalso.
  assert (Hne : u ≠ v) by (intros ->; by apply Hv).
  assert (Hreach : reachable g' u v).
  { apply Hiff; [done| |]; rewrite Hg'.
    - by rewrite lookup_insert_ne.
    - rewrite lookup_insert_eq. eauto. }
  unfold reachable in Hreach.
  apply rtc_inv_r in Hreach as [?|(j&_&(x&e&Hx&He&Hto))]; [done|].
  rewrite Hg' in Hx. destruct (decide (j = v)) as [->|Hj].
  - rewrite lookup_insert_eq in Hx. injection Hx as <-.
    by apply elem_of_nil in He.
  - rewrite lookup_insert_ne in Hx by done.
    destruct (Hwf j x e Hx He) as [_ Hsome]. rewrite Hto in Hsome. by apply Hv.
Qed.

End ConnectivityFacts.

(** ** More on the shortest-path loop *)

Section PredecessorFacts.

Context {VertexInfo EdgeInfo : Type}.
Context {PQ : PriorityQueue} {PQS : PriorityQueueSpec PQ}.
Context {R : Rounding} {RS : RoundingSpec R}.
Abbreviation Graph := (Digraph VertexInfo EdgeInfo).
Abbreviation Vertex := (DigraphVertex VertexInfo EdgeInfo).
Abbreviation Edge := (DigraphEdge EdgeInfo).

Variable g : Graph.
Variable edgeWeightFunc : EdgeInfo -> Q.
Variable startVertex : Z.
Hypothesis g_well_formed : well_formed g.
Hypothesis weight_nonneg : ∀ ei, (0 <= edgeWeightFunc ei)%Q.
Hypothesis start_present : is_Some (container g !! startVertex).

Lemma relax_predecessors (vIndex : Z) (v : Vertex) (e : Edge)
    (vData vData' : gmap Z DijkstraInfo) (pq pq' : pqueue) :
  dijkstra_inv g startVertex vData pq ->
  predecessors_are_edges g startVertex vData ->
  reachable g startVertex vIndex ->
  container g !! vIndex = Some v -> e ∈ edges v ->
  relax edgeWeightFunc vIndex (vData, pq) e = Ok (vData', pq') ->
  predecessors_are_edges g startVertex vData'.
Proof.
  intros Hinv Hpred Hreach Hv He.
  destruct (g_well_formed vIndex v e Hv He) as [_ Hto].
  destruct (inv_lookup g vData (toVertex e) (inv_dom _ _ _ _ Hinv) Hto) as [wD HwD].
  destruct (inv_lookup g vData vIndex (inv_dom _ _ _ _ Hinv) (mk_is_Some _ _ Hv))
    as [vD HvD].
  unfold relax. rewrite (vData_at_present _ _ _ HwD), (vData_at_present _ _ _ HvD).
  destruct (fl _) as [sum|]; [|by destruct (Qltb _ _); [|intros [= <- _]]].
  destruct (Qltb _ _); [|by intros [= <- _]].
  destruct (double_to_int _) as [wd| | |]; [|done..].
  cbn [mbind result_bind]. intros [= <- _] k i. rewrite lookup_insert.
  case_decide as Hk; [|by apply Hpred].
  intros [= <-]. cbn [p]. subst k. right. split; [by exists v, e|done].
Qed.

Lemma relax_all_predecessors (vIndex : Z) (v : Vertex) (l : list Edge) :
  reachable g startVertex vIndex ->
  container g !! vIndex = Some v -> (∀ e, e ∈ l -> e ∈ edges v) ->
  ∀ (vData vData' : gmap Z DijkstraInfo) (pq pq' : pqueue),
    dijkstra_inv g startVertex vData pq ->
    predecessors_are_edges g startVertex vData ->
    relax_all edgeWeightFunc vIndex l (vData, pq) = Ok (vData', pq') ->
    predecessors_are_edges g startVertex vData'.
Proof.
  intros Hreach Hv. induction l as [|e l IH]; intros Hl vData vData' pq pq' Hinv Hpred.
  - by intros [= <- _].
  - cbn [relax_all].
    destruct (relax_spec g edgeWeightFunc startVertex g_well_formed weight_nonneg
                vIndex v e vData pq Hinv Hreach Hv)
      as (vData1&pq1&Hrun1&Hinv1&_); [apply Hl; left|].
    rewrite Hrun1. cbn [mbind result_bind].
    apply (IH (fun e' He' => Hl e' (list_elem_of_further _ _ _ He')) vData1 _ pq1 _ Hinv1).
    assert (He : e ∈ edges v) by (apply Hl; left).
    exact (relax_predecessors vIndex v e vData vData1 pq pq1
             Hinv Hpred Hreach Hv He Hrun1).
Qed.

Lemma dijkstra_loop_predecessors (fuel : nat) :
  ∀ (vData r : gmap Z DijkstraInfo) (pq : pqueue),
    dijkstra_inv g startVertex vData pq ->
    predecessors_are_edges g startVertex vData ->
    dijkstra_loop fuel g edgeWeightFunc vData pq = Ok r ->
    predecessors_are_edges g startVertex r.
Proof.
  induction fuel as [|fuel IH]; intros vData r pq Hinv Hpred; [done|].
  cbn [dijkstra_loop]. case_decide as Hsize; [by intros [= <-]|].
  rewrite pq_size_items in Hsize.
  destruct (pq_top_nonempty pq) as [top Htop].
  { intros Hnil. by rewrite Hnil in Hsize. }
  rewrite Htop. destruct (pq_top_pop pq top Htop) as [Hperm _].
  assert (Hreach : reachable g startVertex top.2).
  { apply (inv_queue _ _ _ _ Hinv). rewrite Hperm. left. }
  destruct (reachable_present g startVertex g_well_formed start_present _ Hreach)
    as [v Hv].
  destruct (inv_lookup g vData top.2 (inv_dom _ _ _ _ Hinv) (mk_is_Some _ _ Hv))
    as [vD HvD].
  rewrite (vData_at_present _ _ _ HvD).
  assert (Hinv_pop : dijkstra_inv g startVertex vData (pq_pop pq)).
  { destruct Hinv as [? ? ? Hqueue ?]. split; [done..| |done].
    intros x Hx. apply Hqueue. rewrite Hperm. by right. }
  destruct (kFlag vD) eqn:Hflag; [by apply IH|].
  rewrite Hv.
  assert (Hinv1 : dijkstra_inv g startVertex
    (<[top.2 := {| kFlag := true; d := d vD; p := p vD |}]> vData) (pq_pop pq)).
  { destruct Hinv_pop as [Hdom Hrange Hstart Hqueue Hpred']. split.
    - rewrite dom_insert_present; [done|by rewrite HvD].
    - intros k i. rewrite lookup_insert. case_decide; [|by apply Hrange].
      intros [= <-]. simpl. by apply (Hrange _ _ HvD).
    - destruct Hstart as (i&Hi&Hd&Hp). rewrite lookup_insert.
      case_decide as Hk; [|by exists i].
      rewrite Hk, Hi in HvD. injection HvD as <-. by eexists.
    - done.
    - intros k i. rewrite lookup_insert. case_decide as Hk; [|by apply Hpred'].
      intros [= <-]. simpl. subst k. by apply (Hpred' _ _ HvD). }
  assert (Hpred1 : predecessors_are_edges g startVertex
    (<[top.2 := {| kFlag := true; d := d vD; p := p vD |}]> vData)).
  { intros k i. rewrite lookup_insert. case_decide as Hk; [|by apply Hpred].
    intros [= <-]. cbn [p]. subst k. by apply (Hpred _ _ HvD). }
  destruct (relax_all_spec g edgeWeightFunc startVertex g_well_formed weight_nonneg
              top.2 v (edges v) Hreach Hv (fun e He => He) _ _ Hinv1)
    as (vData2&pq2&Hrun&Hinv2&_).
  rewrite Hrun. cbn [mbind result_bind]. apply IH; [done|].
  exact (relax_all_predecessors top.2 v (edges v) Hreach Hv (fun e He => He)
           _ vData2 _ pq2 Hinv1 Hpred1 Hrun).
Qed.

(** X20.  On a well-formed graph, from a start vertex that exists and with
    a weight function that is never negative, for every priority queue that
    meets the contract and every rounding of the sums that does not round a
    non-negative sum below zero: whenever the map returned by
    [findShortestPaths] gives a vertex [k] a predecessor [u] other than [k],
    the pair [(u, k)] is listed by [edges()] and [u] can be reached from
    the start. *)
Theorem findShortestPaths_predecessor_edge (ans : gmap Z Z) (k u : Z) :
  findShortestPaths g startVertex edgeWeightFunc = Ok ans ->
  ans !! k = Some u -> u ≠ k ->
  (u, k) ∈ Digraph_edges g ∧ reachable g startVertex u.
Proof.
  unfold findShortestPaths, findShortestPaths_vData.
  destruct start_present as [v0 Hv0]. rewrite Hv0.
  destruct (dijkstra_loop _ _ _ _ _) as [vData| | |] eqn:Hrun; [|done..].
  intros [= <-]. rewrite lookup_fmap.
  destruct (vData !! k) as [i|] eqn:Hi; [|done]. intros [= <-] Hne.
  assert (Hpred : predecessors_are_edges g startVertex vData).
  { eapply dijkstra_loop_predecessors; [| |exact Hrun].
    - by apply init_inv.
    - intros j i'. rewrite init_vData_lookup by done.
      case_decide as Hj; [intros [= <-]; by left|].
      destruct (container g !! j); intros [= <-]; by left. }
  destruct (Hpred k i Hi) as [?|[(v&e&Hv&He&Hto) Hreach]]; [done|].
  split; [|done]. apply elem_of_Digraph_edges. exists (p i), v, e.
  split; [done|]. split; [done|]. unfold edge_pair.
  by destruct (g_well_formed (p i) v e Hv He) as [-> _]; rewrite Hto.
Qed.

End PredecessorFacts.

(** ** The statements above on the concrete graphs *)

(** X16.  One turn of the outer loop of [isStronglyConnected]: on a
    well-formed graph, after the records of all vertices have been reset,
    [DFTr] from a vertex [k] returns, and the records it leaves are [true]
    exactly at the vertices that can be reached from [k]. *)
(** X21.  The comparison in the loop is made on the rounded sum.  On
    [graph_rounded] from the start [1], whatever queue meets the contract
    and whatever rounding returns the sums 1 and 2 unchanged: when the sum
    [1 + (1 - 2^-53)] is rounded to 2, as binary64 does, it is not less than
    the distance 2 stored for [3], and [3] keeps the predecessor [1]; with a
    rounding that returns that sum unchanged, [3] gets the predecessor [2]. *)
Theorem findShortestPaths_compares_rounded_sum
    (PQ : PriorityQueue) (PQS : PriorityQueueSpec PQ) (R : Rounding) :
  fl_exact 1 -> fl_exact 2 ->
  (fl_rounds (1 + below_one) 2 ->
   findShortestPaths graph_rounded 1 weight_of = Ok {[ 1 := 1; 2 := 1; 3 := 1 ]}) ∧
  (fl_exact (1 + below_one) ->
   findShortestPaths graph_rounded 1 weight_of = Ok {[ 1 := 1; 2 := 1; 3 := 2 ]}).
Proof.
  intros H1 H2. split; intros H3.
  - assert (Htable : ∀ x y,
      table_lookup x [(1, 1); (2, 2); (1 + below_one, 2)]%Q = Some y ->
      fl_rounds x y).
    { intros x y. cbn [table_lookup].
      repeat (case_decide; [subst x; by intros [= <-]|]). done. }
    apply (findShortestPaths_reference _ Htable). by vm_compute.
  - assert (Hexact : Forall fl_exact [1; 2; 1 + below_one]%Q)
      by (by repeat constructor).
    apply (findShortestPaths_reference _ (exact_table_rounds _ Hexact)).
    by vm_compute.
Qed.

Theorem DFTr_after_reset {VertexInfo EdgeInfo : Type}
    (g : Digraph VertexInfo EdgeInfo) (k : Z)
    (v : DigraphVertex VertexInfo EdgeInfo) (visitRecords : gmap Z bool) :
  well_formed g -> container g !! k = Some v ->
  dom visitRecords ⊆ dom (container g) ->
  ∃ vr', DFTr (size (container g)) g k v (reset_visit g visitRecords) = Ok vr' ∧
         (∀ u, vr' !! u = Some true ↔ reachable g k u) ∧
         ∀ u, is_Some (vr' !! u) ↔ u ∈ vertices g.
Proof.
  intros Hwf Hk Hsub.
  destruct (DFTr_marks_reachable g k v (reset_visit g visitRecords) Hwf Hk)
    as (vr'&Hrun&Hdom&Hmarks).
  - by apply reset_visit_dom.
  - intros u. by apply reset_visit_unmarked.
  - exists vr'. split; [done|]. split; [exact Hmarks|].
    intros u. by rewrite elem_of_vertices, <-!elem_of_dom, Hdom.
Qed.

Lemma build_two_edges_returns :
  apply_mutations Digraph_new (build_one_edge ++ [AddEdge 1 2 20%Q])
    = Returns graph_two_edges.
Proof. by vm_compute. Qed.

Lemma build_back_edge_returns :
  apply_mutations Digraph_new build_back_edge = Returns graph_back_edge.
Proof. by vm_compute. Qed.

Lemma graph_one_edge_vertices : vertices graph_one_edge = [1; 2].
Proof. by vm_compute. Qed.

Lemma graph_one_edge_edges : Digraph_edges graph_one_edge = [(1, 2)].
Proof. by vm_compute. Qed.

Lemma graph_back_edge_no_forward : no_forward_edge graph_back_edge.
Proof.
  intros a b Hab. assert (H : Digraph_edges graph_back_edge = [(2, 1)])
    by (by vm_compute).
  rewrite H in Hab. apply list_elem_of_singleton in Hab as [= -> ->]. lia.
Qed.

Lemma edge_table_iff_witness :
  well_formed graph_one_edge ∧
  ((1, 2) ∈ Digraph_edges graph_one_edge ↔
     ∃ x, edgeInfo graph_one_edge 1 2 = Ok x).
Proof.
  split; [exact (build_well_formed _ _ build_one_edge_returns)|].
  exact (proj1 (edge_table_iff graph_one_edge 1 2
                  (build_well_formed _ _ build_one_edge_returns))).
Defined.

Lemma addVertex_fresh_witness :
  (3 ∉ vertices graph_one_edge) ∧
  ∃ g', addVertex graph_one_edge 3 "c"%string = Returns g' ∧
        vertexInfo g' 3 = Ok "c"%string ∧
        Digraph_edges g' = Digraph_edges graph_one_edge.
Proof.
  assert (H : 3 ∉ vertices graph_one_edge).
  { rewrite graph_one_edge_vertices. intros Hin.
    repeat (apply elem_of_cons in Hin as [Hin|Hin]; [discriminate|]).
    by apply elem_of_nil in Hin. }
  split; [exact H|].
  destruct (addVertex_fresh graph_one_edge 3 "c"%string H)
    as (g'&Hret&Hinfo&_&_&_&Hedges&_).
  exists g'. split; [exact Hret|]. split; [exact Hinfo|exact Hedges].
Defined.

Lemma addEdge_effects_witness :
  addEdge graph_one_edge 1 2 20%Q = Returns graph_two_edges ∧
  vertices graph_two_edges = vertices graph_one_edge ∧
  edgeCount graph_two_edges = edgeCount graph_one_edge + 1.
Proof.
  assert (H : addEdge graph_one_edge 1 2 20%Q = Returns graph_two_edges)
    by (vm_compute; reflexivity).
  split; [exact H|].
  destruct (addEdge_effects graph_one_edge graph_two_edges 1 2 20%Q H)
    as (_&_&Hvs&_&_&_&_&Hcount).
  split; [exact Hvs|exact Hcount].
Defined.

Lemma addEdge_then_edgeInfo_witness :
  addEdge graph_one_edge 1 2 20%Q = Returns graph_two_edges ∧
  edgeInfo graph_two_edges 1 2 =
    match edgeInfo graph_one_edge 1 2 with
    | Ok y => Ok y
    | _ => Ok 20%Q
    end.
Proof.
  assert (H : addEdge graph_one_edge 1 2 20%Q = Returns graph_two_edges)
    by (vm_compute; reflexivity).
  split; [exact H|].
  exact (proj1 (addEdge_then_edgeInfo graph_one_edge graph_two_edges 1 2 20%Q H)).
Defined.

Lemma removeEdge_undoes_addEdge_witness :
  (∀ y, edgeInfo graph_no_edge 1 2 ≠ Ok y) ∧
  (∃ g', addEdge graph_no_edge 1 2 5%Q = Returns g' ∧
         removeEdge g' 1 2 = Returns graph_no_edge).
Proof.
  assert (H : ∀ y, edgeInfo graph_no_edge 1 2 ≠ Ok y).
  { intros y Hy. vm_compute in Hy. discriminate. }
  split; [exact H|].
  eexists. split; [vm_compute; reflexivity|].
  apply (removeEdge_undoes_addEdge graph_no_edge _ 1 2 5%Q H).
  vm_compute. reflexivity.
Defined.

Lemma removeEdge_effects_witness :
  well_formed graph_two_edges ∧
  (∃ g', removeEdge graph_two_edges 1 2 = Returns g' ∧
         edgeCount g' = edgeCount graph_two_edges - 1).
Proof.
  split; [exact (build_well_formed _ _ build_two_edges_returns)|].
  eexists. split; [vm_compute; reflexivity|].
  refine (proj2 (proj2 (proj2 (proj2 (proj2
    (removeEdge_effects graph_two_edges _ 1 2
       (build_well_formed _ _ build_two_edges_returns) _)))))).
  vm_compute. reflexivity.
Defined.

Lemma removeVertex_effects_witness :
  well_formed graph_one_edge ∧
  (∃ g', removeVertex graph_one_edge 1 = Returns g' ∧
         vertices g' = filter (fun k => k ≠ 1) (vertices graph_one_edge)).
Proof.
  split; [exact (build_well_formed _ _ build_one_edge_returns)|].
  eexists. split; [vm_compute; reflexivity|].
  refine (proj1 (removeVertex_effects graph_one_edge _ 1
    (build_well_formed _ _ build_one_edge_returns) _)).
  vm_compute. reflexivity.
Defined.

Lemma removeVertex_undefined_iff_witness :
  well_formed graph_one_edge ∧
  (removeVertex graph_one_edge 2 = UndefinedBehaviour ↔
     2 ∈ vertices graph_one_edge ∧
     ∃ a, a ≠ 2 ∧ (a, 2) ∈ Digraph_edges graph_one_edge).
Proof.
  split; [exact (build_well_formed _ _ build_one_edge_returns)|].
  exact (removeVertex_undefined_iff graph_one_edge 2
           (build_well_formed _ _ build_one_edge_returns)).
Defined.

Lemma constructible_no_dangling_witness :
  constructible graph_one_edge ∧ (1, 2) ∈ Digraph_edges graph_one_edge ∧
  1 ∈ vertices graph_one_edge ∧ 2 ∈ vertices graph_one_edge.
Proof.
  assert (Hc : constructible graph_one_edge).
  { exact (apply_mutations_constructible _ _ _ constructible_new
             build_one_edge_returns). }
  assert (He : (1, 2) ∈ Digraph_edges graph_one_edge).
  { rewrite graph_one_edge_edges. left. }
  split; [exact Hc|]. split; [exact He|].
  exact (constructible_no_dangling graph_one_edge 1 2 Hc He).
Defined.

Lemma Digraph_copy_returns_witness :
  well_formed graph_back_edge ∧ no_forward_edge graph_back_edge ∧
  Digraph_copy graph_back_edge = Returns graph_back_edge.
Proof.
  split; [exact (build_well_formed _ _ build_back_edge_returns)|].
  split; [exact graph_back_edge_no_forward|].
  exact (Digraph_copy_returns graph_back_edge
           (build_well_formed _ _ build_back_edge_returns)
           graph_back_edge_no_forward).
Defined.

Lemma Digraph_copy_forward_edge_throws_witness :
  well_formed graph_one_edge ∧ (1, 2) ∈ Digraph_edges graph_one_edge ∧ 1 < 2 ∧
  ∃ g', Digraph_copy graph_one_edge =
          Throws (DigraphException "When add, can't find endVertex!") g'.
Proof.
  assert (He : (1, 2) ∈ Digraph_edges graph_one_edge).
  { rewrite graph_one_edge_edges. left. }
  split; [exact (build_well_formed _ _ build_one_edge_returns)|].
  split; [exact He|]. split; [reflexivity|].
  exact (Digraph_copy_forward_edge_throws graph_one_edge 1 2
           (build_well_formed _ _ build_one_edge_returns) He eq_refl).
Defined.

Lemma Digraph_copy_assign_outcomes_witness :
  Digraph_copy_assign graph_cycle None = Returns Digraph_new ∧
  well_formed graph_back_edge ∧ no_forward_edge graph_back_edge ∧
  Digraph_copy_assign graph_cycle (Some graph_back_edge) = Returns graph_back_edge.
Proof.
  destruct (Digraph_copy_assign_outcomes graph_cycle graph_back_edge)
    as (Hself&Hcopy&_).
  split; [exact Hself|].
  split; [exact (build_well_formed _ _ build_back_edge_returns)|].
  split; [exact graph_back_edge_no_forward|].
  exact (Hcopy (build_well_formed _ _ build_back_edge_returns)
           graph_back_edge_no_forward).
Defined.

Lemma DFTr_after_reset_witness :
  well_formed graph_one_edge ∧
  container graph_one_edge !! 1 =
    Some {| vinfo := "a"%string; edges := [mkEdge 1 2 10%Q] |} ∧
  dom (∅ : gmap Z bool) ⊆ dom (container graph_one_edge) ∧
  ∃ vr', DFTr (size (container graph_one_edge)) graph_one_edge 1
           {| vinfo := "a"%string; edges := [mkEdge 1 2 10%Q] |}
           (reset_visit graph_one_edge ∅) = Ok vr' ∧
         (∀ u, vr' !! u = Some true ↔ reachable graph_one_edge 1 u) ∧
         ∀ u, is_Some (vr' !! u) ↔ u ∈ vertices graph_one_edge.
Proof.
  assert (Hk : container graph_one_edge !! 1 =
    Some {| vinfo := "a"%string; edges := [mkEdge 1 2 10%Q] |})
    by (vm_compute; reflexivity).
  assert (Hsub : dom (∅ : gmap Z bool) ⊆ dom (container graph_one_edge)).
  { rewrite dom_empty_L. apply empty_subseteq. }
  split; [exact (build_well_formed _ _ build_one_edge_returns)|].
  split; [exact Hk|]. split; [exact Hsub|].
  exact (DFTr_after_reset graph_one_edge 1 _ ∅
           (build_well_formed _ _ build_one_edge_returns) Hk Hsub).
Defined.

Lemma isStronglyConnected_addEdge_witness :
  well_formed graph_cycle ∧
  isStronglyConnected graph_cycle = Ok true ∧
  ∃ g', addEdge graph_cycle 1 3 2%Q = Returns g' ∧
        isStronglyConnected g' = Ok true.
Proof.
  assert (Hsc : isStronglyConnected graph_cycle = Ok true)
    by (vm_compute; reflexivity).
  split; [exact (build_well_formed _ _ build_cycle_returns)|].
  split; [exact Hsc|].
  eexists. split; [vm_compute; reflexivity|].
  refine (isStronglyConnected_addEdge graph_cycle _ 1 3 2%Q
            (build_well_formed _ _ build_cycle_returns) Hsc _).
  vm_compute. reflexivity.
Defined.

Lemma isStronglyConnected_addVertex_witness :
  well_formed graph_cycle ∧ (4 ∉ vertices graph_cycle) ∧
  1 ∈ vertices graph_cycle ∧
  ∃ g', addVertex graph_cycle 4 "d"%string = Returns g' ∧
        isStronglyConnected g' = Ok false.
Proof.
  assert (Hvs : vertices graph_cycle = [1; 2; 3]) by (vm_compute; reflexivity).
  assert (H4 : 4 ∉ vertices graph_cycle).
  { rewrite Hvs. intros Hin.
    repeat (apply elem_of_cons in Hin as [Hin|Hin]; [discriminate|]).
    by apply elem_of_nil in Hin. }
  assert (H1 : 1 ∈ vertices graph_cycle) by (rewrite Hvs; left).
  split; [exact (build_well_formed _ _ build_cycle_returns)|].
  split; [exact H4|]. split; [exact H1|].
  eexists. split; [vm_compute; reflexivity|].
  refine (isStronglyConnected_addVertex graph_cycle _ 4 1 "d"%string
            (build_well_formed _ _ build_cycle_returns) H4 H1 _).
  vm_compute. reflexivity.
Defined.

Lemma findShortestPaths_compares_rounded_sum_witness :
  fl_exact (R := TableRounding [(1, 1); (2, 2); (1 + below_one, 2)]%Q) 1 ∧
  fl_exact (R := TableRounding [(1, 1); (2, 2); (1 + below_one, 2)]%Q) 2 ∧
  fl_rounds (R := TableRounding [(1, 1); (2, 2); (1 + below_one, 2)]%Q)
    (1 + below_one) 2 ∧
  findShortestPaths (PQ := ListPQ)
    (R := TableRounding [(1, 1); (2, 2); (1 + below_one, 2)]%Q)
    graph_rounded 1 weight_of = Ok {[ 1 := 1; 2 := 1; 3 := 1 ]}.
Proof.
  assert (H1 : fl_exact (R := TableRounding [(1, 1); (2, 2); (1 + below_one, 2)]%Q) 1)
    by (exists 1%Q; split; [vm_compute; reflexivity|reflexivity]).
  assert (H2 : fl_exact (R := TableRounding [(1, 1); (2, 2); (1 + below_one, 2)]%Q) 2)
    by (exists 2%Q; split; [vm_compute; reflexivity|reflexivity]).
  assert (H3 : fl_rounds (R := TableRounding [(1, 1); (2, 2); (1 + below_one, 2)]%Q)
                 (1 + below_one) 2)
    by (exists 2%Q; split; [vm_compute; reflexivity|reflexivity]).
  split; [exact H1|]. split; [exact H2|]. split; [exact H3|].
  exact (proj1 (findShortestPaths_compares_rounded_sum ListPQ ListPQ_spec _ H1 H2) H3).
Defined.

Lemma findShortestPaths_predecessor_edge_witness :
  well_formed graph_detour ∧
  (∀ ei, (0 <= weight_of ei)%Q) ∧
  is_Some (container graph_detour !! 1) ∧
  findShortestPaths (PQ := ListPQ) (R := ExactRounding) graph_detour 1 weight_of =
    Ok {[ 1 := 1; 2 := 1; 3 := 2; 4 := 1 ]} ∧
  2 ≠ 3 ∧
  (2, 3) ∈ Digraph_edges graph_detour ∧ reachable graph_detour 1 2.
Proof.
  assert (Hstart : is_Some (container graph_detour !! 1))
    by (vm_compute; eauto).
  assert (Hrun : findShortestPaths (PQ := ListPQ) (R := ExactRounding)
                   graph_detour 1 weight_of =
    Ok {[ 1 := 1; 2 := 1; 3 := 2; 4 := 1 ]}) by (vm_compute; reflexivity).
  assert (Hne : 2 ≠ 3) by discriminate.
  split; [exact (build_well_formed _ _ build_detour_returns)|].
  split; [exact weight_of_nonneg|]. split; [exact Hstart|].
  split; [exact Hrun|]. split; [exact Hne|].
  exact (findShortestPaths_predecessor_edge (RS := ExactRounding_spec)
           graph_detour weight_of 1
           (build_well_formed _ _ build_detour_returns) weight_of_nonneg Hstart
           _ 3 2 Hrun eq_refl Hne).
Defined.
